(** * D-FENSE: SVD denoising and smoothing of epidemiological series

    A shallow embedding of [DFENSE_DataFilteringSmoothing.py]
    (functions [denoise_svd], [optimal_svht_coef], [median_marcenko_pastur],
    [inc_mar_pas] and the per-column smoothing code of [main]).

    Modelling conventions.
    - numpy floats are read as real numbers ([R]): every statement below is
      about exact real arithmetic, rounding is not modelled;
    - a 1-D array is a [list R], a 2-D array a list of rows;
    - Python integers that the caller controls ([w], [r]) are [Z];
    - raised exceptions are values of [exn]; a [while] loop takes fuel and
      yields [OutOfFuel] when it is exhausted;
    - where numpy goes on with [nan] or an infinity (the median of an empty
      array, a division by a zero count) the value is an [npfloat];
    - the array of singular values, [S] in the source, is written [Sg]
      ([S] is the successor of [nat]);
    - the numerical library routines [np.linalg.svd], [scipy.integrate.quad],
      [scipy.signal.savgol_filter] and [scipy.interpolate.CubicSpline] are
      parameters of the functions that call them; what a theorem needs of
      them is a hypothesis of that theorem. *)

From Stdlib Require Import Reals Lra Lia List ZArith Bool Arith.
From Stdlib Require String.
From Stdlib Require Import Sorting.Permutation Sorting.Sorted.
Import ListNotations.

Open Scope R_scope.

(** ** Outcomes of a call *)

Inductive exn : Type :=
| InvalidWindow            (* ValueError: w cannot be greater than the length of the time series. *)
| InvalidRank              (* ValueError: r must be a positive integer and no greater than w. *)
| InvalidAspectRatio       (* ValueError: beta beyond valid range. *)
| NumpyNegativeWindow      (* sliding_window_view: `window_shape` cannot contain negative values *)
| NumpyWindowTooLarge      (* sliding_window_view: window shape cannot be larger than input array shape *)
| NumpyNegativeDimensions  (* np.zeros: negative dimensions are not allowed *)
| NumpyShapeMismatch       (* could not broadcast input array into shape *)
| IndexError               (* index out of bounds *)
| NotANumber.              (* the value leaves the real numbers (numpy: nan) *)

Inductive outcome (A : Type) : Type :=
| Return (a : A)
| Raise (e : exn)
| OutOfFuel.

Arguments Return {A} a.
Arguments Raise {A} e.
Arguments OutOfFuel {A}.

Definition bind {A B : Type} (m : outcome A) (k : A -> outcome B) : outcome B :=
  match m with
  | Return a => k a
  | Raise e => Raise e
  | OutOfFuel => OutOfFuel
  end.

Notation "x <- m ;; k" := (bind m (fun x => k))
  (at level 61, m at next level, right associativity).
Notation "' p <- m ;; k" := (bind m (fun p => k))
  (at level 61, p pattern, m at next level, right associativity).

(** [for i in idx: s = body(i, s)], stopping at the first exception. *)
Fixpoint for_each {A St : Type} (idx : list A) (body : A -> St -> outcome St)
         (s : St) : outcome St :=
  match idx with
  | [] => Return s
  | i :: rest => s' <- body i s ;; for_each rest body s'
  end.

(** [[f(x) for x in xs]], stopping at the first exception. *)
Fixpoint map_outcome {A B : Type} (f : A -> outcome B) (xs : list A)
  : outcome (list B) :=
  match xs with
  | [] => Return []
  | x :: rest => y <- f x ;; ys <- map_outcome f rest ;; Return (y :: ys)
  end.

(** ** The numpy operations used by the denoiser *)

Definition vector := list R.
Definition matrix := list (list R).

(** [H.shape] *)
Definition nrows (H : matrix) : nat := length H.
Definition ncols (H : matrix) : nat := length (hd [] H).

(** [H[i, j]] *)
Definition entry (H : matrix) (i j : nat) : R := nth j (nth i H []) 0.

(** [np.zeros(n)] *)
Definition np_zeros (n : nat) : vector := repeat 0 n.

(** [np.lib.stride_tricks.sliding_window_view(x, window_shape=w)] on a 1-D
    array: a negative window is refused, a window longer than the array is
    refused, otherwise the view has shape [(len x - w + 1, w)] and holds
    [x[i + j]] at [(i, j)]. *)
Definition sliding_window_view (x : vector) (w : Z) : outcome matrix :=
  if (w <? 0)%Z then Raise NumpyNegativeWindow
  else if (Z.of_nat (length x) <? w)%Z then Raise NumpyWindowTooLarge
  else
    let wn := Z.to_nat w in
    Return (map (fun i => map (fun j => nth (i + j) x 0) (seq 0 wn))
                (seq 0 (length x + 1 - wn))).

(** [np.diag(v)] for a 1-D [v] *)
Definition np_diag (v : vector) : matrix :=
  map (fun i => map (fun j => if Nat.eqb i j then nth i v 0 else 0)
                    (seq 0 (length v)))
      (seq 0 (length v)).

(** Inner product of a row with a column. *)
Fixpoint dot (u v : vector) : R :=
  match u, v with
  | a :: u', b :: v' => a * b + dot u' v'
  | _, _ => 0
  end.

Definition column (B : matrix) (j : nat) : vector :=
  map (fun row => nth j row 0) B.

(** [A @ B], for operands whose inner dimensions agree (as those of the
    factors returned by [np.linalg.svd] do). *)
Definition matmul (A B : matrix) : matrix :=
  map (fun row => map (fun j => dot row (column B j)) (seq 0 (ncols B))) A.

(** [a[k] += v] *)
Definition add_at (k : nat) (v : R) (a : vector) : outcome vector :=
  match nth_error a k with
  | Some old => Return (firstn k a ++ (old + v) :: skipn (S k) a)
  | None => Raise IndexError
  end.

(** An element of a float array that a median or a division may produce:
    a number, an infinity or [nan]. *)
Inductive npfloat : Type :=
| Num (r : R)
| PlusInf
| MinusInf
| Nan.

(** [p / q] on floats: a division by zero does not raise; [0 / 0] is [nan]
    and [p / 0] is the infinity of the sign of [p]. *)
Definition np_div (p q : R) : npfloat :=
  if Req_EM_T q 0
  then if Req_EM_T p 0 then Nan
       else if Rlt_dec 0 p then PlusInf else MinusInf
  else Num (p / q).

(** Element-wise [a / b] of two arrays of one shape. *)
Fixpoint divide (a b : vector) : list npfloat :=
  match a, b with
  | p :: a', q :: b' => np_div p q :: divide a' b'
  | _, _ => []
  end.

(** The numbers of an array that holds neither [nan] nor an infinity. *)
Fixpoint np_reals (a : list npfloat) : option vector :=
  match a with
  | [] => Some []
  | Num r :: a' =>
      match np_reals a' with
      | Some v => Some (r :: v)
      | None => None
      end
  | _ :: _ => None
  end.

(** Insertion into a sorted list, and sorting, as [np.median] needs them. *)
Fixpoint insert_sorted (a : R) (l : vector) : vector :=
  match l with
  | [] => [a]
  | b :: l' => if Rle_dec a b then a :: l else b :: insert_sorted a l'
  end.

Definition np_sort (l : vector) : vector := fold_right insert_sorted [] l.

(** [np.median(S)]: the middle element of the sorted values, or the mean of
    the two middle ones; [nan] on an empty array. *)
Definition np_median (Sg : vector) : npfloat :=
  let s := np_sort Sg in
  let n := length s in
  if Nat.eqb n 0 then Nan
  else if Nat.even n
       then Num ((nth (n / 2 - 1) s 0 + nth (n / 2) s 0) / 2)
       else Num (nth (n / 2) s 0).

(** [c * v] for a number [c] *)
Definition np_scale (c : R) (v : npfloat) : npfloat :=
  match v with
  | Num r => Num (c * r)
  | PlusInf => if Rlt_dec 0 c then PlusInf
               else if Rlt_dec c 0 then MinusInf else Nan
  | MinusInf => if Rlt_dec 0 c then MinusInf
                else if Rlt_dec c 0 then PlusInf else Nan
  | Nan => Nan
  end.

(** [np.sum(S > thresh)] *)
Definition count_above (Sg : vector) (thresh : R) : nat :=
  length (filter (fun s => if Rlt_dec thresh s then true else false) Sg).

(** [np.sum(S > thresh)] for a threshold that may be [nan] or an infinity;
    a comparison with [nan] is false. *)
Definition np_count_above (Sg : vector) (thresh : npfloat) : nat :=
  match thresh with
  | Num t => count_above Sg t
  | MinusInf => length Sg
  | PlusInf | Nan => 0
  end.

(** [np.linspace(lo, hi, num)] for [num >= 2] *)
Definition np_linspace (lo hi : R) (num : nat) : vector :=
  map (fun i => lo + INR i * ((hi - lo) / INR (num - 1))) (seq 0 num).

(** [np.max] and [np.min] of a non-empty selection *)
Definition np_max (l : vector) : R :=
  match l with [] => 0 | a :: l' => fold_left Rmax l' a end.
Definition np_min (l : vector) : R :=
  match l with [] => 0 | a :: l' => fold_left Rmin l' a end.

(** [np.any(mask)] and [x_vals[mask]] *)
Definition np_any (mask : list bool) : bool := existsb (fun b => b) mask.
Definition np_select (xs : vector) (mask : list bool) : vector :=
  map fst (filter snd (combine xs mask)).

Definition Rltb (a b : R) : bool := if Rlt_dec a b then true else false.

(** ** [denoise_svd]: the Hankel embedding (lines 49-57) *)

Definition hankel_embedding (x : vector) (w : Z) : outcome matrix :=
  let N := length x in
  if (Z.of_nat N <? w)%Z then Raise InvalidWindow
  else sliding_window_view x w.

(** ** [denoise_svd]: diagonal averaging (lines 78-86)

    [diagonal_sums] is the double loop; it yields the arrays [x_denoised]
    and [count] as they stand before the final division. *)

Definition diagonal_sums (Hd : matrix) (N : nat) : outcome (vector * vector) :=
  for_each (seq 0 (nrows Hd))
    (fun i s =>
       for_each (seq 0 (ncols Hd))
         (fun j '(x_denoised, count) =>
            x_denoised' <- add_at (i + j) (entry Hd i j) x_denoised ;;
            count' <- add_at (i + j) 1 count ;;
            Return (x_denoised', count'))
         s)
    (np_zeros N, np_zeros N).

Definition diagonal_averaging (Hd : matrix) (N : nat)
  : outcome (list npfloat) :=
  '(x_denoised, count) <- diagonal_sums Hd N ;;
  Return (divide x_denoised count).

(** ** The parameters of [main] (lines 255-257) *)

Definition Window : Z := 52.
Definition Order : nat := 3.
Definition FrameLen : nat := 11.

(** ** The threshold coefficient (lines 89-156) *)

Definition optimal_svht_coef_sigma_known (beta : R) : R :=
  let w_val := (8 * beta) / (beta + 1 + sqrt (beta ^ 2 + 14 * beta + 1)) in
  let lambda_star := sqrt (2 * (beta + 1) + w_val) in
  lambda_star.

Section Denoiser.

(** [scipy.integrate.quad(f, a, b)[0]] *)
Variable quad : (R -> R) -> R -> R -> R.

(** The integrand [f] of [inc_mar_pas]. *)
Definition mar_pas_integrand (beta gamma : R) (x : R) : R :=
  let topSpec := (1 + sqrt beta) ^ 2 in
  let botSpec := (1 - sqrt beta) ^ 2 in
  let val :=
    if Rlt_dec 0 ((topSpec - x) * (x - botSpec))
    then sqrt ((topSpec - x) * (x - botSpec)) / (beta * x) / (2 * PI)
    else 0 in
  if Req_EM_T gamma 0 then val else Rpower x gamma * val.

Definition inc_mar_pas (x0 beta gamma : R) : outcome R :=
  if Rlt_dec 1 beta then Raise InvalidAspectRatio
  else
    let topSpec := (1 + sqrt beta) ^ 2 in
    Return (quad (mar_pas_integrand beta gamma) x0 topSpec).

(** The local function [marpas] of [median_marcenko_pastur]. *)
Definition marpas (beta x : R) : outcome R :=
  I <- inc_mar_pas x beta 0 ;; Return (1 - I).

(** One pass through the body of the [while] loop: the new bounds and the
    new value of [change]. *)
Definition mp_body (beta lobnd hibnd : R) : outcome (R * R * bool) :=
  let x_vals := np_linspace lobnd hibnd 5 in
  y_vals <- map_outcome (marpas beta) x_vals ;;
  let lt := map (fun y => Rltb y 0.5) y_vals in
  let gt := map (fun y => Rltb 0.5 y) y_vals in
  let '(lobnd, change) :=
    if np_any lt then (np_max (np_select x_vals lt), true)
    else (lobnd, false) in
  let '(hibnd, change) :=
    if np_any gt then (np_min (np_select x_vals gt), true)
    else (hibnd, change) in
  Return (lobnd, hibnd, change).

(** [while change and (hibnd - lobnd > 0.001)] *)
Fixpoint mp_while (fuel : nat) (beta lobnd hibnd : R) (change : bool)
  : outcome (R * R) :=
  match fuel with
  | O => OutOfFuel
  | S fuel' =>
      if change && Rltb 0.001 (hibnd - lobnd)
      then '(lo, hi, ch) <- mp_body beta lobnd hibnd ;;
           mp_while fuel' beta lo hi ch
      else Return (lobnd, hibnd)
  end.

Definition median_marcenko_pastur (fuel : nat) (beta : R) : outcome R :=
  let topSpec := (1 + sqrt beta) ^ 2 in
  let botSpec := (1 - sqrt beta) ^ 2 in
  '(lobnd, hibnd) <- mp_while fuel beta botSpec topSpec true ;;
  Return ((hibnd + lobnd) / 2).

Definition optimal_svht_coef_sigma_unknown (fuel : nat) (beta : R) : outcome R :=
  let coef := optimal_svht_coef_sigma_known beta in
  MPmedian <- median_marcenko_pastur fuel beta ;;
  Return (coef / sqrt MPmedian).

Definition optimal_svht_coef (fuel : nat) (beta : R) (sigma_known : bool)
  : outcome R :=
  if sigma_known then Return (optimal_svht_coef_sigma_known beta)
  else optimal_svht_coef_sigma_unknown fuel beta.

(** ** [denoise_svd] *)

(** [np.linalg.svd(H, full_matrices=False)] *)
Variable svd : matrix -> matrix * vector * matrix.

(** Lines 62-70: the rank that is used. *)
Definition select_rank (fuel : nat) (H : matrix) (Sg : vector) (w : Z)
           (r : option Z) : outcome Z :=
  match r with
  | None =>
      let m := nrows H in
      let n := ncols H in
      let beta := INR (Nat.min m n) / INR (Nat.max m n) in
      coef <- optimal_svht_coef fuel beta false ;;
      let thresh := np_scale coef (np_median Sg) in
      Return (Z.of_nat (np_count_above Sg thresh))
  | Some r =>
      if ((r <=? 0) || (w <? r))%Z then Raise InvalidRank else Return r
  end.

(** Line 73: [np.diag(np.concatenate([S[:r], np.zeros(len(S) - r)]))] for
    [r >= 0]. *)
Definition truncate (Sg : vector) (r : Z) : outcome matrix :=
  if (Z.of_nat (length Sg) - r <? 0)%Z then Raise NumpyNegativeDimensions
  else Return (np_diag (firstn (Z.to_nat r) Sg
                          ++ np_zeros (Z.to_nat (Z.of_nat (length Sg) - r)))).

Definition denoise_svd (fuel : nat) (x : vector) (w : Z) (r : option Z)
  : outcome (list npfloat * Z) :=
  let N := length x in
  H <- hankel_embedding x w ;;
  let '(U, Sg, Vt) := svd H in
  r <- select_rank fuel H Sg w r ;;
  S_r <- truncate Sg r ;;
  let H_denoised := matmul (matmul U S_r) Vt in
  x_denoised <- diagonal_averaging H_denoised N ;;
  Return (x_denoised, r).

(** Line 285 of [main]: the rank is left to the threshold. *)
Definition main_denoise (fuel : nat) (column : vector)
  : outcome (list npfloat * Z) :=
  denoise_svd fuel column Window None.

End Denoiser.

(** ** The bisection as the specification words it

    The specification describes the median solver for an upper-tail function
    [F]: bounds start at the support, each round samples [F] at five evenly
    spaced points, moves [lo] up to the largest sample with [F < 0.5] and
    [hi] down to the smallest sample with [F > 0.5], and stops when
    [hi - lo <= 0.001] or when no bound moved; the midpoint is returned.
    This definition follows those words (not the source); it is compared
    with [median_marcenko_pastur] below. *)

Module Spec.

Definition grid (lo hi : R) : vector :=
  [lo; lo + (hi - lo) / 4; lo + 2 * ((hi - lo) / 4);
   lo + 3 * ((hi - lo) / 4); hi].

(** The largest sampled point with [F < 0.5]; [lo] stays when there is
    none. *)
Definition tighten_lo (F : R -> R) (pts : vector) (lo : R) : R :=
  match filter (fun x => Rltb (F x) 0.5) pts with
  | [] => lo
  | a :: rest => fold_left Rmax rest a
  end.

(** The smallest sampled point with [F > 0.5]; [hi] stays when there is
    none. *)
Definition tighten_hi (F : R -> R) (pts : vector) (hi : R) : R :=
  match filter (fun x => Rltb 0.5 (F x)) pts with
  | [] => hi
  | a :: rest => fold_left Rmin rest a
  end.

Fixpoint bisect (fuel : nat) (F : R -> R) (lo hi : R) : outcome (R * R) :=
  match fuel with
  | O => OutOfFuel
  | S fuel' =>
      if Rle_dec (hi - lo) 0.001 then Return (lo, hi)
      else
        let pts := grid lo hi in
        let lo' := tighten_lo F pts lo in
        let hi' := tighten_hi F pts hi in
        if Req_EM_T lo' lo
        then if Req_EM_T hi' hi then Return (lo, hi)
             else bisect fuel' F lo' hi'
        else bisect fuel' F lo' hi'
  end.




End Spec.

(** ** The smoothing stage of [main] (lines 284-297) *)

(** The least integer not below [r]. *)
Definition Zceil (r : R) : Z := (1 - up (- r))%Z.

(** [np.arange(start, stop, step)] for a positive step: it has
    [ceil((stop - start) / step)] elements [start + i * step]. *)
Definition np_arange (start stop step : R) : vector :=
  map (fun i => start + INR i * step)
      (seq 0 (Z.to_nat (Zceil ((stop - start) / step)))).

(** [a[::2]] *)
Fixpoint every_second (a : vector) : vector :=
  match a with
  | [] => []
  | [p] => [p]
  | p :: _ :: rest => p :: every_second rest
  end.

(** [data[:, col] = v] for a column of [N] entries: [v] must have [N] entries,
    or one entry, which is then repeated. *)
Definition assign_column (N : nat) (v : vector) : outcome vector :=
  if Nat.eqb (length v) N then Return v
  else if Nat.eqb (length v) 1 then Return (repeat (hd 0 v) N)
  else Raise NumpyShapeMismatch.

Section Smoothing.

(** [scipy.signal.savgol_filter(x, window_length, polyorder)] *)
Variable savgol_filter : vector -> nat -> nat -> outcome vector.

(** [scipy.interpolate.CubicSpline(x, y)], a callable when it is built. *)
Variable CubicSpline : vector -> vector -> outcome (R -> R).

(** Lines 287-288, for one column. *)
Definition filter_column (window_length polyorder : nat) (denoised : vector)
  : outcome vector :=
  filtered <- savgol_filter denoised window_length polyorder ;;
  assign_column (length denoised) filtered.

(** Lines 291-297, for one column. *)
Definition spline_column (column : vector) : outcome vector :=
  let Nepiweeks := length column in
  let time1 := np_arange 1 (INR Nepiweeks + 1) 1 in
  let time2 := np_arange 1 (INR Nepiweeks + 1) 0.5 in
  cs <- CubicSpline time1 column ;;
  let interp_vals := map cs time2 in
  assign_column Nepiweeks (every_second interp_vals).

Definition smooth (window_length polyorder : nat) (denoised : vector)
  : outcome vector :=
  filtered <- filter_column window_length polyorder denoised ;;
  spline_column filtered.

(** The smoothing of [main], with its constants. *)
Definition main_smooth (denoised : vector) : outcome vector :=
  smooth FrameLen Order denoised.

End Smoothing.

(** ** Notions used to state what the loops compute *)

Definition Rsum (l : vector) : R := fold_right Rplus 0 l.

(** What row [i] of the double loop adds to output index [k], when the
    entry read at [(i, j)] is [g i j] and [j] runs over [js]. *)
Definition row_share (g : nat -> nat -> R) (i : nat) (js : list nat) (k : nat) : R :=
  Rsum (map (fun j => if Nat.eqb (i + j) k then g i j else 0) js).

(** What the whole double loop adds to output index [k]. *)
Definition diagonal_share (g : nat -> nat -> R) (rows js : list nat) (k : nat) : R :=
  Rsum (map (fun i => row_share g i js k) rows).

(** The number of entries [(i, j)] of an [m x n] matrix with [i + j = k]. *)
Definition diagonal_size (m n k : nat) : nat :=
  (Nat.min m (k + 1) - (k + 1 - n))%nat.

(** A vector, or a row, of zeros. *)
Definition all_zero (v : vector) : Prop := Forall (fun a => a = 0) v.


(** The function that [marpas] computes when [beta <= 1]. *)
Definition upper_tail (quad : (R -> R) -> R -> R -> R) (beta x : R) : R :=
  1 - quad (mar_pas_integrand beta 0) x ((1 + sqrt beta) ^ 2).

Definition increasing_on (F : R -> R) (a b : R) : Prop :=
  forall x y, a <= x -> x < y -> y <= b -> F x < F y.

(** Singular values as [np.linalg.svd] returns them: in descending order. *)
Fixpoint descending (l : vector) : Prop :=
  match l with
  | [] => True
  | a :: l' => (forall b, In b l' -> b <= a) /\ descending l'
  end.

(** ** The rest of [main] (lines 284-302)

    [data] is read as its columns: [epiweek] (column 0, never filtered) and
    [fields] (columns 1 to 8, the first of them the reported cases). *)

(** The greatest integer not above [r]. *)
Definition Zfloor (r : R) : Z := (up r - 1)%Z.

(** [np.round]: to the nearest integer, a tie to the even one. *)
Definition np_round (x : R) : R :=
  let f := Zfloor x in
  let d := x - IZR f in
  if Rlt_dec d 0.5 then IZR f
  else if Rlt_dec 0.5 d then IZR (f + 1)
  else if Z.even f then IZR f else IZR (f + 1).

(** [a[a < 0] = 0.0] on one column *)
Definition clip_negative (a : vector) : vector :=
  map (fun v => if Rlt_dec v 0 then 0 else v) a.

Section Main.

Variable quad : (R -> R) -> R -> R -> R.
Variable svd : matrix -> matrix * vector * matrix.
Variable savgol_filter : vector -> nat -> nat -> outcome vector.
Variable CubicSpline : vector -> vector -> outcome (R -> R).

(** Lines 284-288: the first loop over the columns.  The filter is taken on
    series of numbers; a denoised series that holds [nan] or an infinity
    (which takes a decomposition of the wrong shape) is beyond it. *)
Definition main_filter_loop (fuel : nat) (fields : list vector)
  : outcome (list vector) :=
  map_outcome
    (fun column =>
       '(denoised, _) <- denoise_svd quad svd fuel column Window None ;;
       match np_reals denoised with
       | Some denoised =>
           filtered <- savgol_filter denoised FrameLen Order ;;
           assign_column (length column) filtered
       | None => Raise NotANumber
       end)
    fields.

(** Lines 291-297: the second loop over the columns. *)
Definition main_spline_loop (fields : list vector) : outcome (list vector) :=
  map_outcome (spline_column CubicSpline) fields.

(** Lines 299-302: the cases are rounded, then every negative entry of the
    table is set to zero. *)
Definition main_postprocess (epiweek : vector) (fields : list vector)
  : outcome (list vector) :=
  match fields with
  | cases :: rest =>
      Return (map clip_negative (epiweek :: map np_round cases :: rest))
  | [] => Raise IndexError
  end.

Definition main_process (fuel : nat) (epiweek : vector) (fields : list vector)
  : outcome (list vector) :=
  fields <- main_filter_loop fuel fields ;;
  fields <- main_spline_loop fields ;;
  main_postprocess epiweek fields.

End Main.

(** ** [DFENSE_DataAggregation.py] *)

Module Aggregation.

Import String.

(** A value of a numeric pandas column. *)
Inductive xfloat : Type :=
| Finite (r : R)
| PosInf
| NegInf
| NaN.

(** [a < b] and [a <= b] on such values; both are false when either side
    is [nan]. *)
Definition xlt (a b : xfloat) : bool :=
  match a, b with
  | NaN, _ | _, NaN => false
  | _, NegInf => false
  | NegInf, _ => true
  | PosInf, _ => false
  | Finite _, PosInf => true
  | Finite p, Finite q => Rltb p q
  end.

Definition xle (a b : xfloat) : bool :=
  match a, b with
  | NaN, _ | _, NaN => false
  | NegInf, _ => true
  | _, PosInf => true
  | _, NegInf => false
  | PosInf, _ => false
  | Finite p, Finite q => negb (Rltb q p)
  end.

(** A column is numeric, or it holds text. *)
Inductive coldata : Type :=
| Numeric (values : list xfloat)
| Object (values : list string).

(** A frame: its columns in order, each under its (unique) name. *)
Definition dataframe : Type := list (string * coldata).

Inductive result (A : Type) : Type :=
| Ok (a : A)
| ValueError.   (* Forbidden values must be numeric arrays of length 2. *)

Arguments Ok {A} a.
Arguments ValueError {A}.

(** [s.fillna(0.0)] on one value *)
Definition fillna (v : xfloat) : xfloat :=
  match v with NaN => Finite 0 | _ => v end.

(** [df.loc[df[col] < 0, col] = 0.0] on one value *)
Definition zero_negative (v : xfloat) : xfloat :=
  if xlt v (Finite 0) then Finite 0 else v.

(** [df.loc[(df[col] >= lower) & (df[col] <= upper), col] = 0.0] on one
    value *)
Definition zero_in_range (lower upper : xfloat) (v : xfloat) : xfloat :=
  if xle lower v && xle v upper then Finite 0 else v.

(** Lines 73-78: the loop over [forbidden_values]; an entry is a list (or
    tuple) of bounds. *)
Fixpoint apply_forbidden (forbidden_values : list (list xfloat))
         (values : list xfloat) : result (list xfloat) :=
  match forbidden_values with
  | [] => Ok values
  | rng :: rest =>
      match rng with
      | [lower; upper] =>
          apply_forbidden rest (map (zero_in_range lower upper) values)
      | _ => ValueError
      end
  end.

(** Lines 62-78, for one numeric column.  Line 63 builds a series with the
    infinities replaced and drops it, so it changes nothing; line 66 looks
    for the empty string, which no numeric value equals. *)
Definition clean_numeric (positive : bool) (forbidden_values : list (list xfloat))
           (values : list xfloat) : result (list xfloat) :=
  let values := map fillna values in
  let values := if positive then map zero_negative values else values in
  apply_forbidden forbidden_values values.

Definition default_list {A : Type} (o : option (list A)) : list A :=
  match o with Some l => l | None => [] end.

(** Lines 59-79: the loop over the columns. *)
Fixpoint clean_columns (positive_fields : list string)
         (forbidden_values : list (list xfloat)) (df : dataframe)
  : result dataframe :=
  match df with
  | [] => Ok []
  | (col, Object values) :: rest =>
      match clean_columns positive_fields forbidden_values rest with
      | Ok rest' => Ok ((col, Object values) :: rest')
      | ValueError => ValueError
      end
  | (col, Numeric values) :: rest =>
      match clean_numeric (existsb (String.eqb col) positive_fields)
                          forbidden_values values with
      | Ok values' =>
          match clean_columns positive_fields forbidden_values rest with
          | Ok rest' => Ok ((col, Numeric values') :: rest')
          | ValueError => ValueError
          end
      | ValueError => ValueError
      end
  end.

Definition data_cleaning (raw_data : dataframe)
           (positive_fields : option (list string))
           (forbidden_values : option (list (list xfloat)))
  : result dataframe :=
  clean_columns (default_list positive_fields) (default_list forbidden_values)
                raw_data.

(** [range(a, b)] *)
Definition py_range (a b : Z) : list Z :=
  map (fun i => (a + Z.of_nat i)%Z) (seq 0 (Z.to_nat (b - a))).

(** Line 339 of [main]. *)
Definition valid_epiweeks : list Z :=
  flat_map (fun year => map (fun week => (year * 100 + week)%Z) (py_range 1 53))
           (py_range 2010 2024).

(** Lines 385-389, [epiweek_to_date]: the date is given as a year and the
    days after its first of January; [datetime] refuses a year outside
    1..9999, and the sum refuses to leave that span. *)
Definition epiweek_to_date (epi : Z) : option (Z * Z) :=
  let year := (epi / 100)%Z in
  let week := (epi mod 100)%Z in
  let days := (7 * (week - 1))%Z in
  if ((year <? 1) || (9999 <? year))%Z then None
  else if ((year =? 1) && (days <? 0))%Z then None
  else if ((year =? 9999) && (364 <? days))%Z then None
  else Some (year, days).

(** What the loops of [data_cleaning] do to one value: the forbidden ranges
    in turn, after [fillna] and, in a positive field, the zeroing of
    negatives.  These are used to state and prove its properties. *)
Fixpoint forbid_value (forbidden_values : list (list xfloat)) (v : xfloat)
  : xfloat :=
  match forbidden_values with
  | [lower; upper] :: rest => forbid_value rest (zero_in_range lower upper v)
  | _ => v
  end.

Definition clean_value (positive : bool) (forbidden_values : list (list xfloat))
           (v : xfloat) : xfloat :=
  forbid_value forbidden_values
               (if positive then zero_negative (fillna v) else fillna v).

Definition well_formed (forbidden_values : list (list xfloat)) : Prop :=
  Forall (fun rng => List.length rng = 2%nat) forbidden_values.

(** The cleaned value [y] of a value [x]: it is a number, it is [x] or
    zero, it is not negative in a positive field, and it is zero or outside
    every forbidden range. *)
Definition cleaned_value (positive : bool) (forbidden_values : list (list xfloat))
           (x y : xfloat) : Prop :=
  y <> NaN
  /\ (y = x \/ y = Finite 0)
  /\ (positive = true -> xlt y (Finite 0) = false)
  /\ (forall lower upper, In [lower; upper] forbidden_values ->
        y = Finite 0 \/ xle lower y && xle y upper = false).

Definition cleaned_column (positive_fields : list string)
           (forbidden_values : list (list xfloat))
           (c c' : string * coldata) : Prop :=
  fst c' = fst c
  /\ match snd c, snd c' with
     | Object v, Object v' => v' = v
     | Numeric v, Numeric v' =>
         Forall2 (cleaned_value (existsb (String.eqb (fst c)) positive_fields)
                                forbidden_values) v v'
     | _, _ => False
     end.

(** What the loop over the columns does to one column, when the forbidden
    ranges are well formed. *)
Definition clean_column (positive_fields : list string)
           (forbidden_values : list (list xfloat))
           (c : string * coldata) : string * coldata :=
  match snd c with
  | Numeric values =>
      (fst c,
       Numeric (map (clean_value (existsb (String.eqb (fst c)) positive_fields)
                                 forbidden_values) values))
  | Object _ => c
  end.

Definition is_numeric (c : string * coldata) : bool :=
  match snd c with Numeric _ => true | Object _ => false end.

(** The column of reported cases, and the fields that [main] names as
    positive (lines 327-330). *)
Definition casos : string := "casos"%string.
Definition positive_fields1 : list string := ["epiweek"; "casos"; "geocode"]%string.
Definition positive_fields3 : list string := ["geocode"]%string.

End Aggregation.

(** * Properties *)

(** ** Lists and ranges *)

Lemma nth_map_seq {A : Type} (f : nat -> A) (n i : nat) (d : A) :
  (i < n)%nat -> nth i (map f (seq 0 n)) d = f i.
Proof.
  intros Hi.
  rewrite (nth_indep _ d (f 0%nat)) by (rewrite length_map, length_seq; exact Hi).
  rewrite (map_nth f (seq 0 n) 0%nat i), seq_nth by exact Hi.
  reflexivity.
Qed.

Lemma window_is_slice (x : vector) (i w : nat) :
  (i + w <= length x)%nat ->
  map (fun j => nth (i + j) x 0) (seq 0 w) = firstn w (skipn i x).
Proof.
  intros Hiw.
  apply (nth_ext _ _ 0 0).
  - rewrite length_map, length_seq, length_firstn, length_skipn. lia.
  - intros j Hj. rewrite length_map, length_seq in Hj.
    rewrite nth_map_seq by exact Hj.
    rewrite nth_firstn.
    destruct (Nat.ltb_spec j w) as [_ | Hge]; [| lia].
    rewrite nth_skipn. reflexivity.
Qed.

(** ** Hankel embedding *)

Lemma hankel_embedding_ok (x : vector) (w : Z) :
  (0 <= w <= Z.of_nat (length x))%Z ->
  hankel_embedding x w =
  Return (map (fun i => map (fun j => nth (i + j) x 0) (seq 0 (Z.to_nat w)))
              (seq 0 (length x + 1 - Z.to_nat w))).
Proof.
  intros [Hlo Hhi]. unfold hankel_embedding, sliding_window_view.
  destruct (Z.ltb_spec (Z.of_nat (length x)) w); [lia |].
  destruct (Z.ltb_spec w 0); [lia |].
  reflexivity.
Qed.

(** C8 (as amended): the window error of [denoise_svd] is raised, before the
    embedding is computed, exactly when [w > N]; for [1 <= w <= N] the
    embedding is a matrix of shape [(N - w + 1, w)] whose row [i] is the
    slice [x[i : i + w]]. *)
Theorem hankel_embedding_window (x : vector) (w : Z) :
  (hankel_embedding x w = Raise InvalidWindow <-> (Z.of_nat (length x) < w)%Z)
  /\ ((1 <= w <= Z.of_nat (length x))%Z ->
      exists H : matrix,
        hankel_embedding x w = Return H
        /\ nrows H = (length x - Z.to_nat w + 1)%nat
        /\ ncols H = Z.to_nat w
        /\ forall i, (i < nrows H)%nat ->
             nth i H [] = firstn (Z.to_nat w) (skipn i x)).
Proof.
  split.
  - unfold hankel_embedding, sliding_window_view.
    destruct (Z.ltb_spec (Z.of_nat (length x)) w) as [Hgt | Hle].
    + split; [intros _; exact Hgt | reflexivity].
    + split; [| lia].
      destruct (Z.ltb_spec w 0); discriminate.
  - intros [Hlo Hhi].
    rewrite hankel_embedding_ok by lia.
    eexists. split; [reflexivity |].
    assert (Hw : (Z.to_nat w <= length x)%nat) by lia.
    assert (Hrows : (length x + 1 - Z.to_nat w = length x - Z.to_nat w + 1)%nat)
      by lia.
    unfold nrows, ncols. rewrite length_map, length_seq.
    split; [exact Hrows |]. split.
    + rewrite Hrows, Nat.add_1_r. simpl. rewrite length_map, length_seq.
      reflexivity.
    + intros i Hi. rewrite nth_map_seq by exact Hi.
      apply window_is_slice. lia.
Qed.

Lemma hankel_embedding_window_witness :
  exists H : matrix,
    hankel_embedding [1; 2; 3] 2 = Return H
    /\ nrows H = 2%nat /\ ncols H = 2%nat
    /\ forall i, (i < nrows H)%nat -> nth i H [] = firstn 2 (skipn i [1; 2; 3]).
Proof.
  apply (proj2 (hankel_embedding_window [1; 2; 3] 2)).
  simpl. lia.
Defined.

(** C8 (as stated) fails for the window [w = 0]: it is below 1, no error is
    raised and the embedding has two rows and no column. *)
Lemma hankel_embedding_window_zero :
  (0 < 1)%Z
  /\ hankel_embedding [1] 0 = Return [[]; []]
  /\ ~ (hankel_embedding [1] 0 = Raise InvalidWindow
        <-> ((Z.of_nat (length [1]) < 0)%Z \/ (0 < 1)%Z)).
Proof.
  split; [lia |]. split; [reflexivity |].
  intros [_ Hrej].
  assert (Hbad : hankel_embedding [1] 0 = Raise InvalidWindow)
    by (apply Hrej; right; lia).
  discriminate Hbad.
Qed.

(** ** Diagonal averaging *)

Lemma add_at_ok (k : nat) (v : R) (a : vector) :
  (k < length a)%nat ->
  exists a', add_at k v a = Return a'
             /\ length a' = length a
             /\ forall k', nth k' a' 0
                          = nth k' a 0 + (if Nat.eqb k k' then v else 0).
Proof.
  intros Hk. unfold add_at.
  rewrite (nth_error_nth' a 0 Hk).
  eexists. split; [reflexivity |]. split.
  - rewrite length_app, length_firstn, length_cons, length_skipn. lia.
  - intros k'.
    assert (Hlen : length (firstn k a) = k) by (rewrite length_firstn; lia).
    destruct (Nat.eqb_spec k k') as [<- | Hne].
    + rewrite app_nth2 by lia. rewrite Hlen, Nat.sub_diag. reflexivity.
    + destruct (Nat.lt_ge_cases k' k) as [Hlt | Hge].
      * rewrite app_nth1 by lia. rewrite nth_firstn.
        destruct (Nat.ltb_spec k' k); [lra | lia].
      * rewrite app_nth2 by lia. rewrite Hlen.
        destruct (k' - k)%nat as [| d] eqn:Hd; [lia |].
        cbn [nth]. rewrite nth_skipn.
        replace (S k + d)%nat with k' by lia. lra.
Qed.

Section DiagonalLoop.

Variable g : nat -> nat -> R.
Variable N : nat.

Let body (i j : nat) (s : vector * vector) : outcome (vector * vector) :=
  let '(x_denoised, count) := s in
  x_denoised' <- add_at (i + j) (g i j) x_denoised ;;
  count' <- add_at (i + j) 1 count ;;
  Return (x_denoised', count').

Lemma inner_loop_ok (i : nat) (js : list nat) :
  (forall j, In j js -> (i + j < N)%nat) ->
  forall xd cnt, length xd = N -> length cnt = N ->
  exists xd' cnt',
    for_each js (body i) (xd, cnt) = Return (xd', cnt')
    /\ length xd' = N /\ length cnt' = N
    /\ forall k,
        nth k xd' 0 = nth k xd 0 + row_share g i js k
        /\ nth k cnt' 0 = nth k cnt 0 + row_share (fun _ _ => 1) i js k.
Proof.
  induction js as [| j js IH]; intros Hin xd cnt Hxd Hcnt.
  - exists xd, cnt. repeat split; trivial; unfold row_share; simpl; lra.
  - destruct (add_at_ok (i + j) (g i j) xd) as (xd1 & E1 & L1 & V1).
    { rewrite Hxd. apply Hin. left. reflexivity. }
    destruct (add_at_ok (i + j) 1 cnt) as (cnt1 & E2 & L2 & V2).
    { rewrite Hcnt. apply Hin. left. reflexivity. }
    destruct (IH (fun j' Hj' => Hin j' (or_intror Hj')) xd1 cnt1)
      as (xd' & cnt' & E & Lx & Lc & V); try congruence.
    exists xd', cnt'. split.
    + simpl. rewrite E1. simpl. rewrite E2. simpl. exact E.
    + split; [exact Lx |]. split; [exact Lc |].
      intros k. destruct (V k) as [Vx Vc].
      rewrite Vx, Vc, V1, V2. unfold row_share. simpl.
      split; lra.
Qed.

Lemma outer_loop_ok (js : list nat) (rows : list nat) :
  (forall i j, In i rows -> In j js -> (i + j < N)%nat) ->
  forall xd cnt, length xd = N -> length cnt = N ->
  exists xd' cnt',
    for_each rows (fun i s => for_each js (body i) s) (xd, cnt)
    = Return (xd', cnt')
    /\ length xd' = N /\ length cnt' = N
    /\ forall k,
        nth k xd' 0 = nth k xd 0 + diagonal_share g rows js k
        /\ nth k cnt' 0 = nth k cnt 0 + diagonal_share (fun _ _ => 1) rows js k.
Proof.
  induction rows as [| i rows IH]; intros Hin xd cnt Hxd Hcnt.
  - exists xd, cnt. repeat split; trivial; unfold diagonal_share; simpl; lra.
  - destruct (inner_loop_ok i js (fun j Hj => Hin i j (or_introl eq_refl) Hj)
                            xd cnt Hxd Hcnt)
      as (xd1 & cnt1 & E1 & L1 & L2 & V1).
    destruct (IH (fun i' j Hi' Hj => Hin i' j (or_intror Hi') Hj) xd1 cnt1 L1 L2)
      as (xd' & cnt' & E & Lx & Lc & V).
    exists xd', cnt'. split.
    + simpl. rewrite E1. simpl. exact E.
    + split; [exact Lx |]. split; [exact Lc |].
      intros k. destruct (V k) as [Vx Vc]. destruct (V1 k) as [V1x V1c].
      rewrite Vx, Vc, V1x, V1c. unfold diagonal_share. simpl.
      split; lra.
Qed.

End DiagonalLoop.

Lemma Rsum_app (l1 l2 : vector) : Rsum (l1 ++ l2) = Rsum l1 + Rsum l2.
Proof.
  induction l1 as [| a l1 IH]; simpl; [lra |].
  fold (Rsum (l1 ++ l2)) (Rsum l1). rewrite IH. lra.
Qed.

Lemma row_share_unit (i k n : nat) :
  forall a,
    row_share (fun _ _ => 1) i (seq a n) k
    = if ((i + a <=? k) && (k <? i + a + n))%nat then 1 else 0.
Proof.
  unfold row_share.
  induction n as [| n IH]; intros a.
  - simpl. destruct (Nat.leb_spec (i + a) k), (Nat.ltb_spec k (i + a + 0));
      simpl; trivial; lia.
  - simpl. rewrite IH.
    destruct (Nat.eqb_spec (i + a) k),
             (Nat.leb_spec (i + S a) k), (Nat.ltb_spec k (i + S a + n)),
             (Nat.leb_spec (i + a) k), (Nat.ltb_spec k (i + a + S n));
      simpl; try lra; lia.
Qed.

Lemma diagonal_share_unit (m n k : nat) :
  diagonal_share (fun _ _ => 1) (seq 0 m) (seq 0 n) k
  = INR (diagonal_size m n k).
Proof.
  unfold diagonal_share, diagonal_size.
  induction m as [| m IH].
  - simpl. reflexivity.
  - rewrite seq_S, map_app, Rsum_app, IH.
    cbn [map Rsum fold_right Nat.add].
    rewrite row_share_unit.
    destruct (Nat.leb_spec (m + 0) k) as [H1 | H1],
             (Nat.ltb_spec k (m + 0 + n)) as [H2 | H2]; cbn [andb].
    + replace (Nat.min (S m) (k + 1) - (k + 1 - n))%nat
        with (S (Nat.min m (k + 1) - (k + 1 - n))) by lia.
      rewrite S_INR. lra.
    + replace (Nat.min (S m) (k + 1) - (k + 1 - n))%nat
        with (Nat.min m (k + 1) - (k + 1 - n))%nat by lia.
      lra.
    + replace (Nat.min (S m) (k + 1) - (k + 1 - n))%nat
        with (Nat.min m (k + 1) - (k + 1 - n))%nat by lia.
      lra.
    + replace (Nat.min (S m) (k + 1) - (k + 1 - n))%nat
        with (Nat.min m (k + 1) - (k + 1 - n))%nat by lia.
      lra.
Qed.

Lemma diagonal_size_min (N w k : nat) :
  (1 <= w <= N)%nat -> (k < N)%nat ->
  diagonal_size (N - w + 1) w k
  = Nat.min (Nat.min (k + 1) w) (Nat.min (N - k) (N - w + 1)).
Proof. unfold diagonal_size. lia. Qed.

(** Entries that agree along the anti-diagonal [k] add up to their common
    value times the number of entries on it. *)
Lemma row_share_constant (g : nat -> nat -> R) (c : R) (i k : nat) (js : list nat) :
  (forall j, In j js -> (i + j)%nat = k -> g i j = c) ->
  row_share g i js k = c * row_share (fun _ _ => 1) i js k.
Proof.
  unfold row_share. induction js as [| j js IH]; intros Hg; simpl; [lra |].
  fold (Rsum (map (fun j0 => if Nat.eqb (i + j0) k then g i j0 else 0) js)).
  fold (Rsum (map (fun j0 => if Nat.eqb (i + j0) k then 1 else 0) js)).
  rewrite IH by (intros j' Hj'; apply Hg; right; exact Hj').
  destruct (Nat.eqb_spec (i + j) k) as [E | _].
  - rewrite (Hg j (or_introl eq_refl) E). lra.
  - lra.
Qed.

Lemma diagonal_share_constant (g : nat -> nat -> R) (c : R) (k : nat)
      (rows js : list nat) :
  (forall i j, In i rows -> In j js -> (i + j)%nat = k -> g i j = c) ->
  diagonal_share g rows js k = c * diagonal_share (fun _ _ => 1) rows js k.
Proof.
  unfold diagonal_share. induction rows as [| i rows IH]; intros Hg; simpl; [lra |].
  fold (Rsum (map (fun i0 => row_share g i0 js k) rows)).
  fold (Rsum (map (fun i0 => row_share (fun _ _ => 1) i0 js k) rows)).
  rewrite IH by (intros i' j Hi' Hj; apply Hg; [right; exact Hi' | exact Hj]).
  rewrite (row_share_constant g c i k js)
    by (intros j Hj; apply Hg; [left; reflexivity | exact Hj]).
  lra.
Qed.

Lemma nth_np_zeros (n k : nat) : nth k (np_zeros n) 0 = 0.
Proof. apply nth_repeat. Qed.

(** The double loop on a matrix of shape [(m, n)] with [m + n <= N + 1]. *)
Lemma diagonal_sums_ok (Hd : matrix) (N : nat) :
  (nrows Hd + ncols Hd <= N + 1)%nat ->
  exists x_denoised count,
    diagonal_sums Hd N = Return (x_denoised, count)
    /\ length x_denoised = N /\ length count = N
    /\ forall k,
        nth k x_denoised 0
        = diagonal_share (entry Hd) (seq 0 (nrows Hd)) (seq 0 (ncols Hd)) k
        /\ nth k count 0 = INR (diagonal_size (nrows Hd) (ncols Hd) k).
Proof.
  intros Hshape. unfold diagonal_sums.
  destruct (outer_loop_ok (entry Hd) N (seq 0 (ncols Hd)) (seq 0 (nrows Hd)))
    with (xd := np_zeros N) (cnt := np_zeros N)
    as (xd & cnt & E & Lx & Lc & V).
  - intros i j Hi Hj. apply in_seq in Hi, Hj. lia.
  - apply repeat_length.
  - apply repeat_length.
  - exists xd, cnt. split; [exact E |]. split; [exact Lx |]. split; [exact Lc |].
    intros k. destruct (V k) as [Vx Vc].
    rewrite Vx, Vc, !nth_np_zeros, diagonal_share_unit. split; lra.
Qed.

(** C7: on a matrix of shape [(N - w + 1, w)] with [1 <= w <= N] the loop
    succeeds and leaves [count[i] = min(i+1, w, N-i, N-w+1) >= 1] at every
    output index; for [N = 10], [w = 3] the counts at 0 and 9 are 1 and the
    counts at 2..7 are 3. *)
Theorem diagonal_counts (Hd : matrix) (N w : nat) :
  (1 <= w <= N)%nat ->
  nrows Hd = (N - w + 1)%nat -> ncols Hd = w ->
  exists x_denoised count,
    diagonal_sums Hd N = Return (x_denoised, count)
    /\ length count = N
    /\ (forall i, (i < N)%nat ->
          nth i count 0
          = INR (Nat.min (Nat.min (i + 1) w) (Nat.min (N - i) (N - w + 1)))
          /\ 1 <= nth i count 0)
    /\ (N = 10%nat -> w = 3%nat ->
        nth 0 count 0 = 1 /\ nth 9 count 0 = 1
        /\ forall i, (2 <= i <= 7)%nat -> nth i count 0 = 3).
Proof.
  intros Hw Hm Hn.
  destruct (diagonal_sums_ok Hd N) as (xd & cnt & E & Lx & Lc & V);
    [rewrite Hm, Hn; lia |].
  assert (Hcount : forall i, (i < N)%nat ->
            nth i cnt 0
            = INR (Nat.min (Nat.min (i + 1) w) (Nat.min (N - i) (N - w + 1)))).
  { intros i Hi. destruct (V i) as [_ Vc].
    rewrite Vc, Hm, Hn, diagonal_size_min by lia. reflexivity. }
  exists xd, cnt. split; [exact E |]. split; [exact Lc |]. split.
  - intros i Hi. split; [apply Hcount; exact Hi |].
    rewrite Hcount by exact Hi.
    change 1 with (INR 1). apply le_INR. lia.
  - intros -> ->.
    split; [rewrite Hcount by lia; simpl; lra |].
    split; [rewrite Hcount by lia; simpl; lra |].
    intros i Hi. rewrite Hcount by lia.
    replace (Nat.min (Nat.min (i + 1) 3) (Nat.min (10 - i) (10 - 3 + 1)))
      with 3%nat by lia.
    simpl. lra.
Qed.

Lemma diagonal_counts_witness :
  exists x_denoised count,
    diagonal_sums (repeat [0; 0; 0] 8) 10 = Return (x_denoised, count)
    /\ length count = 10%nat
    /\ (forall i, (i < 10)%nat ->
          nth i count 0
          = INR (Nat.min (Nat.min (i + 1) 3) (Nat.min (10 - i) (10 - 3 + 1)))
          /\ 1 <= nth i count 0)
    /\ (10%nat = 10%nat -> 3%nat = 3%nat ->
        nth 0 count 0 = 1 /\ nth 9 count 0 = 1
        /\ forall i, (2 <= i <= 7)%nat -> nth i count 0 = 3).
Proof.
  apply (diagonal_counts (repeat [0; 0; 0] 8) 10 3).
  - lia.
  - reflexivity.
  - reflexivity.
Defined.

Lemma divide_length (a b : vector) :
  length a = length b -> length (divide a b) = length a.
Proof.
  revert b. induction a as [| p a IH]; intros [| q b] Hlen; simpl in *;
    try discriminate; trivial.
  f_equal. apply IH. congruence.
Qed.

Lemma divide_nth (a b : vector) :
  length a = length b ->
  forall k, (k < length a)%nat ->
    nth k (divide a b) Nan = np_div (nth k a 0) (nth k b 0).
Proof.
  revert b. induction a as [| p a IH]; intros [| q b] Hlen k Hk; simpl in *;
    try discriminate; try lia.
  destruct k as [| k]; [reflexivity |].
  apply IH; [congruence | lia].
Qed.

Lemma np_div_number (p q : R) : q <> 0 -> np_div p q = Num (p / q).
Proof.
  intros Hq. unfold np_div. destruct (Req_EM_T q 0); [contradiction | reflexivity].
Qed.

Lemma nth_map_Num (x : vector) (k : nat) :
  (k < length x)%nat -> nth k (map Num x) Nan = Num (nth k x 0).
Proof.
  intros Hk. rewrite (nth_indep _ Nan (Num 0)) by (rewrite length_map; exact Hk).
  apply map_nth.
Qed.

Lemma np_reals_map_Num (x : vector) : np_reals (map Num x) = Some x.
Proof.
  induction x as [| r x IH]; simpl; [reflexivity |]. rewrite IH. reflexivity.
Qed.

(** The matrix that [sliding_window_view] returns. *)
Lemma hankel_shape (x : vector) (w : nat) :
  (w <= length x)%nat ->
  let H := map (fun i => map (fun j => nth (i + j) x 0) (seq 0 w))
               (seq 0 (length x + 1 - w)) in
  nrows H = (length x + 1 - w)%nat /\ ncols H = w
  /\ forall i j, (i < length x + 1 - w)%nat -> (j < w)%nat ->
       entry H i j = nth (i + j) x 0.
Proof.
  intros Hw H. unfold nrows, ncols, entry, H.
  rewrite length_map, length_seq. split; [reflexivity |]. split.
  - replace (length x + 1 - w)%nat with (S (length x - w)) by lia.
    simpl. rewrite length_map, length_seq. reflexivity.
  - intros i j Hi Hj. rewrite (nth_map_seq _ _ _ _ Hi).
    rewrite nth_map_seq by exact Hj. reflexivity.
Qed.

(** Anti-diagonal averaging undoes the embedding. *)
Lemma hankel_average (x : vector) (w : nat) :
  (1 <= w <= length x)%nat ->
  diagonal_averaging
    (map (fun i => map (fun j => nth (i + j) x 0) (seq 0 w))
         (seq 0 (length x + 1 - w)))
    (length x)
  = Return (map Num x).
Proof.
  intros Hw. unfold diagonal_averaging.
  destruct (hankel_shape x w) as (Hm & Hn & Hentry); [lia |].
  set (H := map _ _) in *.
  destruct (diagonal_sums_ok H (length x)) as (xd & cnt & E & Lx & Lc & V);
    [rewrite Hm, Hn; lia |].
  rewrite E. simpl. f_equal.
  apply (nth_ext _ _ Nan Nan).
  - rewrite divide_length, length_map; congruence.
  - intros k Hk. rewrite divide_length in Hk by congruence.
    rewrite divide_nth, nth_map_Num by congruence.
    destruct (V k) as [Vx Vc]. rewrite Vx, Vc.
    rewrite (diagonal_share_constant (entry H) (nth k x 0)).
    + rewrite diagonal_share_unit.
      assert (Hpos : 1 <= INR (diagonal_size (nrows H) (ncols H) k)).
      { change 1 with (INR 1). apply le_INR.
        rewrite Hm, Hn. unfold diagonal_size. lia. }
      rewrite np_div_number by lra. f_equal. field. lra.
    + intros i j Hi Hj Hij. apply in_seq in Hi, Hj.
      rewrite Hentry by lia. rewrite Hij. reflexivity.
Qed.

Lemma firstn_all_zeros (Sg : vector) (r : Z) :
  r = Z.of_nat (length Sg) ->
  firstn (Z.to_nat r) Sg ++ np_zeros (Z.to_nat (Z.of_nat (length Sg) - r)) = Sg.
Proof.
  intros ->. rewrite Nat2Z.id, Z.sub_diag, firstn_all. apply app_nil_r.
Qed.

(** C1: with the supplied rank [min(N - w + 1, w)] no singular value is
    discarded, and the denoised series is the input series (every entry a
    number, equal to the entry of the input). *)
Theorem full_rank_identity
        (quad : (R -> R) -> R -> R -> R)
        (svd : matrix -> matrix * vector * matrix)
        (fuel : nat) (x : vector) (w : Z) :
  (1 <= w <= Z.of_nat (length x))%Z ->
  (forall H U Sg Vt,
      hankel_embedding x w = Return H -> svd H = (U, Sg, Vt) ->
      length Sg = Nat.min (nrows H) (ncols H)
      /\ matmul (matmul U (np_diag Sg)) Vt = H) ->
  let r := Z.min (Z.of_nat (length x) - w + 1) w in
  denoise_svd quad svd fuel x w (Some r) = Return (map Num x, r).
Proof.
  intros Hw Hsvd r. unfold denoise_svd.
  pose proof (hankel_embedding_ok x w ltac:(lia)) as HE.
  destruct (hankel_shape x (Z.to_nat w)) as (Hm & Hn & _); [lia |].
  rewrite HE. cbn [bind].
  set (H := map _ _) in *.
  destruct (svd H) as [[U Sg] Vt] eqn:Esvd.
  destruct (Hsvd H U Sg Vt HE Esvd) as [Hlen Hrec].
  assert (Hr : r = Z.of_nat (length Sg)) by (unfold r; lia).
  unfold select_rank.
  destruct (Z.leb_spec r 0) as [Hr0 | _]; [unfold r in Hr0; lia |].
  destruct (Z.ltb_spec w r) as [Hwr | _]; [unfold r in Hwr; lia |].
  cbn [orb bind]. unfold truncate.
  destruct (Z.ltb_spec (Z.of_nat (length Sg) - r) 0) as [Hneg | _]; [lia |].
  cbn [bind]. rewrite (firstn_all_zeros Sg r Hr), Hrec.
  unfold H. rewrite hankel_average by lia. reflexivity.
Qed.

Lemma full_rank_identity_witness :
  denoise_svd (fun _ a b => (b - a) / 4)
              (fun _ => ([[3 / 5]; [4 / 5]], [5], [[1]]))
              0 [3; 4] 1 (Some 1%Z)
  = Return ([Num 3; Num 4], 1%Z).
Proof.
  apply (full_rank_identity (fun _ a b => (b - a) / 4)
                            (fun _ => ([[3 / 5]; [4 / 5]], [5], [[1]]))
                            0%nat [3; 4] 1%Z).
  - simpl. lia.
  - intros H U Sg Vt HE Hsvd.
    injection Hsvd as <- <- <-.
    cbv [hankel_embedding sliding_window_view] in HE. simpl in HE.
    injection HE as <-.
    split; [reflexivity |].
    cbv [matmul np_diag column ncols]. simpl.
    repeat f_equal; field.
Defined.

(** C2 (the code at the failing inputs): a supplied rank that passes the
    check [1 <= r <= w] but exceeds the number [min(N - w + 1, w)] of
    singular values makes [np.zeros(len(S) - r)] raise. *)
Theorem rank_above_spectrum_raises
        (quad : (R -> R) -> R -> R -> R)
        (svd : matrix -> matrix * vector * matrix)
        (fuel : nat) (x : vector) (w r : Z) :
  (1 <= w <= Z.of_nat (length x))%Z ->
  (Z.of_nat (length x) - w + 1 < r <= w)%Z ->
  (forall H U Sg Vt,
      hankel_embedding x w = Return H -> svd H = (U, Sg, Vt) ->
      length Sg = Nat.min (nrows H) (ncols H)) ->
  denoise_svd quad svd fuel x w (Some r) = Raise NumpyNegativeDimensions.
Proof.
  intros Hw Hr Hsvd. unfold denoise_svd.
  pose proof (hankel_embedding_ok x w ltac:(lia)) as HE.
  destruct (hankel_shape x (Z.to_nat w)) as (Hm & Hn & _); [lia |].
  rewrite HE. cbn [bind].
  set (H := map _ _) in *.
  destruct (svd H) as [[U Sg] Vt] eqn:Esvd.
  pose proof (Hsvd H U Sg Vt HE Esvd) as Hlen.
  unfold select_rank.
  destruct (Z.leb_spec r 0) as [Hr0 | _]; [lia |].
  destruct (Z.ltb_spec w r) as [Hwr | _]; [lia |].
  cbn [orb bind]. unfold truncate.
  destruct (Z.ltb_spec (Z.of_nat (length Sg) - r) 0) as [_ | Hge]; [reflexivity |].
  lia.
Qed.

Lemma rank_above_spectrum_raises_witness :
  denoise_svd (fun _ a b => (b - a) / 4)
              (fun _ => ([[1]], [sqrt 14],
                         [[1 / sqrt 14; 2 / sqrt 14; 3 / sqrt 14]]))
              0 [1; 2; 3] 3 (Some 2%Z)
  = Raise NumpyNegativeDimensions.
Proof.
  apply rank_above_spectrum_raises.
  - simpl. lia.
  - simpl. lia.
  - intros H U Sg Vt HE Hsvd.
    injection Hsvd as <- <- <-.
    cbv [hankel_embedding sliding_window_view] in HE. simpl in HE.
    injection HE as <-. reflexivity.
Defined.

(** ** The known-noise threshold coefficient *)

Lemma sqrt_16 : sqrt 16 = 4.
Proof. replace 16 with (4 * 4) by lra. apply sqrt_square. lra. Qed.

Lemma svht_known_at_one : optimal_svht_coef_sigma_known 1 = sqrt (16 / 3).
Proof.
  unfold optimal_svht_coef_sigma_known.
  replace (1 ^ 2 + 14 * 1 + 1) with 16 by lra.
  rewrite sqrt_16. f_equal. lra.
Qed.

Lemma svht_known_at_one_bounds :
  2.3094 < optimal_svht_coef_sigma_known 1 < 2.3095.
Proof.
  rewrite svht_known_at_one. split.
  - rewrite <- (sqrt_square 2.3094) at 1 by lra.
    apply sqrt_lt_1; lra.
  - rewrite <- (sqrt_square 2.3095) at 1 by lra.
    apply sqrt_lt_1; lra.
Qed.

(** C4 (as amended): for [0 < beta <= 1] the known-noise coefficient is
    [sqrt(2(beta+1) + 8 beta / (beta + 1 + sqrt(beta^2 + 14 beta + 1)))],
    every radicand is non-negative, the denominator is positive and the
    value is positive; at [beta = 1] it is [4 / sqrt 3], about 2.3094. *)
Theorem svht_known_closed_form
        (quad : (R -> R) -> R -> R -> R) (fuel : nat) (beta : R) :
  0 < beta <= 1 ->
  let d := beta + 1 + sqrt (beta ^ 2 + 14 * beta + 1) in
  optimal_svht_coef quad fuel beta true
  = Return (sqrt (2 * (beta + 1) + (8 * beta) / d))
  /\ 0 <= beta ^ 2 + 14 * beta + 1
  /\ 0 < d
  /\ 0 < 2 * (beta + 1) + (8 * beta) / d
  /\ 0 < sqrt (2 * (beta + 1) + (8 * beta) / d)
  /\ optimal_svht_coef quad fuel 1 true = Return (4 / sqrt 3)
  /\ 2.3094 < 4 / sqrt 3 < 2.3095.
Proof.
  intros [Hpos Hle] d.
  assert (Hrad : 0 <= beta ^ 2 + 14 * beta + 1) by nra.
  assert (Hd : 0 < d).
  { unfold d. pose proof (sqrt_pos (beta ^ 2 + 14 * beta + 1)). lra. }
  assert (Hfrac : 0 < (8 * beta) / d).
  { apply Rdiv_lt_0_compat; lra. }
  assert (Hsum : 0 < 2 * (beta + 1) + (8 * beta) / d) by lra.
  assert (Hone : optimal_svht_coef_sigma_known 1 = 4 / sqrt 3).
  { rewrite svht_known_at_one, sqrt_div_alt by lra.
    rewrite sqrt_16. reflexivity. }
  split; [reflexivity |]. split; [exact Hrad |]. split; [exact Hd |].
  split; [exact Hsum |]. split; [apply sqrt_lt_R0; exact Hsum |].
  split; [simpl; rewrite Hone; reflexivity |].
  rewrite <- Hone. exact svht_known_at_one_bounds.
Qed.

Lemma svht_known_closed_form_witness :
  optimal_svht_coef (fun _ a b => (b - a) / 4) 0 (1 / 2) true
  = Return (sqrt (2 * (1 / 2 + 1)
                  + (8 * (1 / 2))
                    / (1 / 2 + 1 + sqrt ((1 / 2) ^ 2 + 14 * (1 / 2) + 1)))).
Proof.
  apply (svht_known_closed_form (fun _ a b => (b - a) / 4) 0%nat (1 / 2)).
  lra.
Defined.

(** C4 (as stated) fails at [beta = 1]: the coefficient is below 2.31, so it
    is not the constant 2.8582 to four decimal places. *)
Lemma svht_known_at_one_not_2_8582 :
  optimal_svht_coef_sigma_known 1 < 2.31
  /\ ~ (Rabs (optimal_svht_coef_sigma_known 1 - 2.8582) < 0.00005).
Proof.
  pose proof svht_known_at_one_bounds as [_ Hup].
  split; [lra |].
  intros Habs. apply Rabs_def2 in Habs. lra.
Qed.

(** ** The Marchenko-Pastur median solver *)

Lemma map_outcome_return {A B : Type} (f : A -> outcome B) (g : A -> B)
      (xs : list A) :
  (forall x, f x = Return (g x)) -> map_outcome f xs = Return (map g xs).
Proof.
  intros Hf. induction xs as [| x xs IH]; simpl; [reflexivity |].
  rewrite Hf, IH. reflexivity.
Qed.

Lemma np_select_filter (q : R -> bool) (xs : vector) :
  np_select xs (map q xs) = filter q xs.
Proof.
  unfold np_select. induction xs as [| x xs IH]; simpl; [reflexivity |].
  destruct (q x); simpl; rewrite IH; reflexivity.
Qed.

Lemma np_any_existsb (q : R -> bool) (xs : vector) :
  np_any (map q xs) = existsb q xs.
Proof.
  unfold np_any. induction xs as [| x xs IH]; simpl; [reflexivity |].
  rewrite IH. reflexivity.
Qed.

Lemma existsb_filter_nil (q : R -> bool) (xs : vector) :
  existsb q xs = false -> filter q xs = [].
Proof.
  induction xs as [| x xs IH]; simpl; [reflexivity |].
  destruct (q x); simpl; [discriminate | exact IH].
Qed.

Lemma existsb_filter_cons (q : R -> bool) (xs : vector) :
  existsb q xs = true -> exists a rest, filter q xs = a :: rest.
Proof.
  induction xs as [| x xs IH]; simpl; [discriminate |].
  destruct (q x); simpl; [intros _; eauto | exact IH].
Qed.

Lemma np_linspace_5 (lo hi : R) : np_linspace lo hi 5 = Spec.grid lo hi.
Proof.
  unfold np_linspace, Spec.grid. cbn [map seq Nat.sub].
  repeat match goal with
         | |- _ :: _ = _ :: _ => apply f_equal2; [simpl; field |]
         end.
  reflexivity.
Qed.

Section Solver.

Variable quad : (R -> R) -> R -> R -> R.
Variable beta : R.
Hypothesis beta_le_1 : beta <= 1.

Let F := upper_tail quad beta.

Lemma marpas_upper_tail (x : R) : marpas quad beta x = Return (F x).
Proof.
  unfold marpas, inc_mar_pas.
  destruct (Rlt_dec 1 beta) as [Hgt | _]; [lra |].
  reflexivity.
Qed.

(** The loop body computes the bounds that the specification describes;
    [change] records whether some sample lay off the level 0.5. *)
Lemma mp_body_tighten (lo hi : R) :
  mp_body quad beta lo hi
  = Return (Spec.tighten_lo F (Spec.grid lo hi) lo,
            Spec.tighten_hi F (Spec.grid lo hi) hi,
            existsb (fun x => Rltb (F x) 0.5) (Spec.grid lo hi)
            || existsb (fun x => Rltb 0.5 (F x)) (Spec.grid lo hi)).
Proof.
  unfold mp_body. rewrite np_linspace_5.
  rewrite (map_outcome_return _ F) by apply marpas_upper_tail.
  cbn [bind]. rewrite !map_map.
  rewrite !np_select_filter, !np_any_existsb.
  unfold Spec.tighten_lo, Spec.tighten_hi.
  set (qlt := fun x => Rltb (F x) 0.5).
  set (qgt := fun x => Rltb 0.5 (F x)).
  destruct (existsb qlt (Spec.grid lo hi)) eqn:Elt,
           (existsb qgt (Spec.grid lo hi)) eqn:Egt.
  - destruct (existsb_filter_cons _ _ Elt) as (a & l & ->).
    destruct (existsb_filter_cons _ _ Egt) as (b & l' & ->). reflexivity.
  - destruct (existsb_filter_cons _ _ Elt) as (a & l & ->).
    rewrite (existsb_filter_nil _ _ Egt). reflexivity.
  - rewrite (existsb_filter_nil _ _ Elt).
    destruct (existsb_filter_cons _ _ Egt) as (b & l' & ->). reflexivity.
  - rewrite (existsb_filter_nil _ _ Elt), (existsb_filter_nil _ _ Egt).
    reflexivity.
Qed.





End Solver.

(** One round on a strictly increasing [F]: both bounds stay inside the old
    interval, the interval at least halves, and [change] is set. *)
Lemma tighten_shrinks (F : R -> R) (a b lo hi : R) :
  increasing_on F a b -> a <= lo -> hi <= b -> 0.001 < hi - lo ->
  let lo' := Spec.tighten_lo F (Spec.grid lo hi) lo in
  let hi' := Spec.tighten_hi F (Spec.grid lo hi) hi in
  lo <= lo' /\ hi' <= hi /\ hi' - lo' <= (hi - lo) / 2
  /\ existsb (fun x => Rltb (F x) 0.5) (Spec.grid lo hi)
     || existsb (fun x => Rltb 0.5 (F x)) (Spec.grid lo hi) = true.
Proof.
  intros Hinc Ha Hb Hwide.
  assert (H01 : F lo < F (lo + (hi - lo) / 4)) by (apply Hinc; lra).
  assert (H12 : F (lo + (hi - lo) / 4) < F (lo + 2 * ((hi - lo) / 4)))
    by (apply Hinc; lra).
  assert (H23 : F (lo + 2 * ((hi - lo) / 4)) < F (lo + 3 * ((hi - lo) / 4)))
    by (apply Hinc; lra).
  assert (H34 : F (lo + 3 * ((hi - lo) / 4)) < F hi) by (apply Hinc; lra).
  unfold Spec.tighten_lo, Spec.tighten_hi, Spec.grid, Rltb.
  cbn [filter existsb].
  set (y0 := F lo) in *.
  set (y1 := F (lo + (hi - lo) / 4)) in *.
  set (y2 := F (lo + 2 * ((hi - lo) / 4))) in *.
  set (y3 := F (lo + 3 * ((hi - lo) / 4))) in *.
  set (y4 := F hi) in *.
  clearbody y0 y1 y2 y3 y4.
  clear Hinc.
  repeat match goal with
         | |- context [Rlt_dec ?p ?q] =>
             destruct (Rlt_dec p q); try (exfalso; lra)
         end;
    cbn [fold_left orb];
    unfold Rmax, Rmin;
    repeat match goal with
           | |- context [Rle_dec ?p ?q] =>
               lazymatch p with
               | context [Rle_dec _ _] => fail
               | _ => destruct (Rle_dec p q); try (exfalso; lra)
               end
           end;
    repeat split; try reflexivity; lra.
Qed.

Section Bisection.

Variable quad : (R -> R) -> R -> R -> R.
Variable beta : R.
Hypothesis beta_range : 0 < beta <= 1.

Let F := upper_tail quad beta.
Let topSpec := (1 + sqrt beta) ^ 2.
Let botSpec := (1 - sqrt beta) ^ 2.

Hypothesis F_increasing : increasing_on F botSpec topSpec.

(** An interval no wider than [0.001 * 2^n] is settled within [n] rounds,
    and the loop of the source and the loop of the specification stop on
    the same bounds. *)
Lemma mp_while_halving :
  forall n lo hi fuel,
    botSpec <= lo -> hi <= topSpec -> hi - lo <= 0.001 * 2 ^ n ->
    (n < fuel)%nat ->
    exists lo' hi',
      mp_while quad fuel beta lo hi true = Return (lo', hi')
      /\ Spec.bisect fuel F lo hi = Return (lo', hi').
Proof.
  induction n as [| n IH]; intros lo hi [| fuel] Hlo Hhi Hwidth Hfuel;
    try lia; cbn [mp_while Spec.bisect andb]; unfold Rltb.
  - destruct (Rlt_dec 0.001 (hi - lo)) as [Hwide | Hnarrow];
      [simpl in Hwidth; lra |].
    destruct (Rle_dec (hi - lo) 0.001) as [_ | Hbad]; [| lra].
    exists lo, hi. split; reflexivity.
  - destruct (Rlt_dec 0.001 (hi - lo)) as [Hwide | Hnarrow].
    + destruct (Rle_dec (hi - lo) 0.001) as [Hbad | _]; [lra |].
      rewrite mp_body_tighten by apply beta_range.
      destruct (tighten_shrinks F botSpec topSpec lo hi
                                F_increasing Hlo Hhi Hwide)
        as (Hlo' & Hhi' & Hhalf & Hchange).
      fold F. rewrite Hchange. cbn [bind].
      set (lo' := Spec.tighten_lo F (Spec.grid lo hi) lo) in *.
      set (hi' := Spec.tighten_hi F (Spec.grid lo hi) hi) in *.
      assert (Hnext : hi' - lo' <= 0.001 * 2 ^ n)
        by (simpl in Hwidth; lra).
      destruct (IH lo' hi' fuel) as (lo2 & hi2 & E1 & E2); try lra; [lia |].
      exists lo2, hi2. split; [exact E1 |].
      destruct (Req_EM_T lo' lo) as [Elo | _]; [| exact E2].
      destruct (Req_EM_T hi' hi) as [Ehi | _]; [lra | exact E2].
    + destruct (Rle_dec (hi - lo) 0.001) as [_ | Hbad]; [| lra].
      exists lo, hi. split; reflexivity.
Qed.

Lemma support_width : topSpec - botSpec <= 0.001 * 2 ^ 12.
Proof.
  assert (Hs : sqrt beta <= 1).
  { rewrite <- sqrt_1. apply sqrt_le_1; lra. }
  unfold topSpec, botSpec. simpl. lra.
Qed.

Lemma mp_while_from_support (fuel : nat) :
  (13 <= fuel)%nat ->
  exists lo hi,
    mp_while quad fuel beta botSpec topSpec true = Return (lo, hi)
    /\ Spec.bisect fuel F botSpec topSpec = Return (lo, hi).
Proof.
  intros Hfuel.
  apply (mp_while_halving 12); try lra; [apply support_width | lia].
Qed.

End Bisection.

(** C6: for [0 < beta <= 1] the [while] loop of [median_marcenko_pastur]
    ends; when the upper-tail function is strictly increasing on the support
    (as the exact integral of the positive density is), thirteen
    evaluations of the loop condition suffice. *)
Theorem median_marcenko_pastur_terminates
        (quad : (R -> R) -> R -> R -> R) (beta : R) :
  0 < beta <= 1 ->
  increasing_on (upper_tail quad beta)
                ((1 - sqrt beta) ^ 2) ((1 + sqrt beta) ^ 2) ->
  forall fuel, (13 <= fuel)%nat ->
    exists med, median_marcenko_pastur quad fuel beta = Return med.
Proof.
  intros Hbeta Hinc fuel Hfuel.
  destruct (mp_while_from_support quad beta Hbeta Hinc fuel Hfuel)
    as (lo & hi & E & _).
  unfold median_marcenko_pastur. rewrite E. cbn [bind].
  eexists. reflexivity.
Qed.

Lemma linear_quad_increasing :
  increasing_on (upper_tail (fun _ a b => (b - a) / 4) 1)
                ((1 - sqrt 1) ^ 2) ((1 + sqrt 1) ^ 2).
Proof.
  unfold increasing_on, upper_tail. intros x y _ Hxy _. lra.
Defined.

Lemma median_marcenko_pastur_terminates_witness :
  exists med,
    median_marcenko_pastur (fun _ a b => (b - a) / 4) 13 1 = Return med.
Proof.
  apply (median_marcenko_pastur_terminates (fun _ a b => (b - a) / 4) 1).
  - lra.
  - exact linear_quad_increasing.
  - lia.
Defined.

Section AssignedRule.

Variable quad : (R -> R) -> R -> R -> R.
Variable beta : R.
Hypothesis beta_le_1 : beta <= 1.



End AssignedRule.





(** ** Automatic rank selection *)

Lemma insert_sorted_length (a : R) (l : vector) :
  length (insert_sorted a l) = S (length l).
Proof.
  induction l as [| b l IH]; simpl; [reflexivity |].
  destruct (Rle_dec a b); simpl; [reflexivity | rewrite IH; reflexivity].
Qed.

Lemma np_sort_length (l : vector) : length (np_sort l) = length l.
Proof.
  induction l as [| a l IH]; simpl; [reflexivity |].
  fold (np_sort l). rewrite insert_sorted_length, IH. reflexivity.
Qed.

Lemma insert_sorted_permutation (a : R) (l : vector) :
  Permutation (a :: l) (insert_sorted a l).
Proof.
  induction l as [| b l IH]; simpl; [apply Permutation_refl |].
  destruct (Rle_dec a b); [apply Permutation_refl |].
  apply perm_trans with (b :: a :: l); [apply perm_swap |].
  apply perm_skip. exact IH.
Qed.

Lemma np_sort_permutation (l : vector) : Permutation l (np_sort l).
Proof.
  induction l as [| a l IH]; simpl; [constructor |]. fold (np_sort l).
  apply perm_trans with (a :: np_sort l); [apply perm_skip; exact IH |].
  apply insert_sorted_permutation.
Qed.

Lemma insert_sorted_sorted (a : R) (l : vector) :
  Sorted Rle l -> Sorted Rle (insert_sorted a l).
Proof.
  induction 1 as [| b l Hs IH Hhd]; simpl; [repeat constructor |].
  destruct (Rle_dec a b) as [Hab | Hab].
  - constructor; [constructor; assumption | constructor; exact Hab].
  - constructor; [exact IH |].
    destruct l as [| c l]; simpl; [constructor; lra |].
    destruct (Rle_dec a c); constructor; [lra |].
    inversion Hhd; assumption.
Qed.

Lemma np_sort_sorted (l : vector) : Sorted Rle (np_sort l).
Proof.
  induction l as [| a l IH]; simpl; [constructor |]. fold (np_sort l).
  apply insert_sorted_sorted. exact IH.
Qed.

(** The median of a non-empty array is a number: the middle of its values
    in ascending order. *)
Lemma np_median_number (Sg : vector) :
  (1 <= length Sg)%nat ->
  exists sorted,
    Permutation Sg sorted /\ Sorted Rle sorted
    /\ np_median Sg
       = Num (let n := length sorted in
              if Nat.even n
              then (nth (n / 2 - 1) sorted 0 + nth (n / 2) sorted 0) / 2
              else nth (n / 2) sorted 0).
Proof.
  intros Hlen. exists (np_sort Sg).
  split; [apply np_sort_permutation |]. split; [apply np_sort_sorted |].
  unfold np_median. cbv zeta. rewrite np_sort_length.
  destruct (Nat.eqb_spec (length Sg) 0) as [E | _]; [lia |].
  destruct (Nat.even (length Sg)); reflexivity.
Qed.

(** The values counted by [np.sum(S > t)] and the others. *)
Lemma above_below_permutation (t : R) (Sg : vector) :
  Permutation Sg
              (filter (fun s => if Rlt_dec t s then true else false) Sg
               ++ filter (fun s => if Rlt_dec t s then false else true) Sg).
Proof.
  induction Sg as [| s Sg IH]; cbn [filter app]; [constructor |].
  destruct (Rlt_dec t s) as [Hlt | Hle]; cbn [app].
  - constructor. exact IH.
  - apply Permutation_cons_app. exact IH.
Qed.

Lemma count_above_partition (Sg : vector) (t : R) :
  exists above below,
    Permutation Sg (above ++ below)
    /\ Forall (fun s => t < s) above /\ Forall (fun s => s <= t) below
    /\ count_above Sg t = length above.
Proof.
  exists (filter (fun s => if Rlt_dec t s then true else false) Sg),
    (filter (fun s => if Rlt_dec t s then false else true) Sg).
  split; [apply above_below_permutation |]. split; [| split].
  - apply Forall_forall. intros s Hs. apply filter_In in Hs as [_ Hs].
    destruct (Rlt_dec t s); [assumption | discriminate].
  - apply Forall_forall. intros s Hs. apply filter_In in Hs as [_ Hs].
    destruct (Rlt_dec t s); [discriminate | lra].
  - reflexivity.
Qed.

Lemma count_above_le (Sg : vector) (t : R) : (count_above Sg t <= length Sg)%nat.
Proof. apply filter_length_le. Qed.

Lemma np_count_above_le (Sg : vector) (t : npfloat) :
  (np_count_above Sg t <= length Sg)%nat.
Proof. destruct t; cbn [np_count_above]; auto using count_above_le with arith. Qed.

Lemma dot_zero_l (u v : vector) : all_zero u -> dot u v = 0.
Proof.
  intros Hu. revert v. induction Hu as [| a u Ha _ IH]; intros [| b v]; simpl;
    trivial.
  rewrite Ha, IH. lra.
Qed.

Lemma dot_zero_r (u v : vector) : all_zero v -> dot u v = 0.
Proof.
  intros Hv. revert u. induction Hv as [| b v Hb _ IH]; intros [| a u]; simpl;
    trivial.
  rewrite Hb, IH. lra.
Qed.

Lemma all_zero_nth (v : vector) (k : nat) : all_zero v -> nth k v 0 = 0.
Proof.
  intros Hv. revert k. induction Hv as [| a v Ha _ IH]; intros [| k]; simpl;
    trivial.
Qed.

Lemma column_diag_zeros (n l : nat) : all_zero (column (np_diag (np_zeros n)) l).
Proof.
  unfold all_zero, column, np_diag. rewrite map_map.
  apply Forall_forall. intros a Ha. apply in_map_iff in Ha as (i & <- & _).
  apply all_zero_nth. apply Forall_forall.
  intros b Hb. apply in_map_iff in Hb as (j & <- & _).
  destruct (Nat.eqb i j); [apply nth_np_zeros | reflexivity].
Qed.

Lemma matmul_zero_r (A B : matrix) :
  (forall j, all_zero (column B j)) -> Forall all_zero (matmul A B).
Proof.
  intros HB. unfold matmul. apply Forall_forall.
  intros row Hrow. apply in_map_iff in Hrow as (u & <- & _).
  apply Forall_forall. intros b Hb. apply in_map_iff in Hb as (j & <- & _).
  apply dot_zero_r, HB.
Qed.

Lemma matmul_zero_l (A B : matrix) :
  Forall all_zero A -> Forall all_zero (matmul A B).
Proof.
  intros HA. unfold matmul. apply Forall_forall.
  intros row Hrow. apply in_map_iff in Hrow as (u & <- & Hu).
  apply Forall_forall. intros b Hb. apply in_map_iff in Hb as (j & <- & _).
  apply dot_zero_l. exact (proj1 (Forall_forall _ _) HA u Hu).
Qed.

Lemma entry_zero (M : matrix) (i j : nat) : Forall all_zero M -> entry M i j = 0.
Proof.
  intros HM. unfold entry.
  destruct (nth_in_or_default i M []) as [Hin | ->].
  - apply all_zero_nth. exact (proj1 (Forall_forall _ _) HM _ Hin).
  - destruct j; reflexivity.
Qed.

Lemma matmul_shape (A B : matrix) :
  (1 <= nrows A)%nat ->
  nrows (matmul A B) = nrows A /\ ncols (matmul A B) = ncols B.
Proof.
  unfold nrows, ncols, matmul. intros HA. rewrite length_map.
  split; [reflexivity |].
  destruct A as [| a A]; simpl in *; [lia |].
  rewrite length_map, length_seq. reflexivity.
Qed.

(** Averaging a matrix of zeros of shape [(m, n)] with [m, n >= 1] and
    [m + n = N + 1]: every index is reached, so every entry is the number
    0. *)
Lemma zero_average (Hd : matrix) (N : nat) :
  Forall all_zero Hd ->
  (1 <= nrows Hd)%nat -> (1 <= ncols Hd)%nat ->
  (nrows Hd + ncols Hd = N + 1)%nat ->
  diagonal_averaging Hd N = Return (map Num (np_zeros N)).
Proof.
  intros Hz Hm Hn Hshape. unfold diagonal_averaging.
  destruct (diagonal_sums_ok Hd N ltac:(lia)) as (xd & cnt & E & Lx & Lc & V).
  rewrite E. cbn [bind]. f_equal.
  apply (nth_ext _ _ Nan Nan).
  - rewrite divide_length, length_map by congruence. unfold np_zeros.
    rewrite repeat_length. exact Lx.
  - intros k Hk. rewrite divide_length in Hk by congruence.
    rewrite divide_nth by congruence.
    rewrite nth_map_Num by (unfold np_zeros; rewrite repeat_length; lia).
    destruct (V k) as [Vx Vc]. rewrite Vx, Vc, nth_np_zeros.
    rewrite (diagonal_share_constant (entry Hd) 0)
      by (intros; apply entry_zero; exact Hz).
    assert (Hpos : 1 <= INR (diagonal_size (nrows Hd) (ncols Hd) k)).
    { change 1 with (INR 1). apply le_INR. unfold diagonal_size. lia. }
    rewrite np_div_number by lra. f_equal. unfold Rdiv. lra.
Qed.

Lemma aspect_ratio_range (m n : nat) :
  (1 <= m)%nat -> (1 <= n)%nat ->
  0 < INR (Nat.min m n) / INR (Nat.max m n) <= 1.
Proof.
  intros Hm Hn.
  assert (H1 : 1 <= INR (Nat.min m n)).
  { change 1 with (INR 1). apply le_INR. lia. }
  assert (H2 : INR (Nat.min m n) <= INR (Nat.max m n)) by (apply le_INR; lia).
  split.
  - apply Rdiv_lt_0_compat; lra.
  - apply Rmult_le_reg_r with (INR (Nat.max m n)); [lra |].
    unfold Rdiv. rewrite Rmult_assoc, Rinv_l by lra. lra.
Qed.

(** C3 (as amended): for a window [1 <= w <= N] and no supplied rank, the
    threshold is the unknown-noise coefficient times the median of the
    singular values (the middle of their ascending arrangement), and the
    rank is the number of singular values strictly above it: the singular
    values split into [rank] values above the threshold and the others, at
    or below it; rank 0 is returned as it is, with an all-zero series. *)
Theorem automatic_rank_selection
        (quad : (R -> R) -> R -> R -> R)
        (svd : matrix -> matrix * vector * matrix)
        (x : vector) (w : Z) (H U Vt : matrix) (Sg : vector) :
  (1 <= w <= Z.of_nat (length x))%Z ->
  hankel_embedding x w = Return H ->
  svd H = (U, Sg, Vt) ->
  length Sg = Nat.min (nrows H) (ncols H) ->
  nrows U = nrows H -> ncols Vt = ncols H ->
  let beta := INR (Nat.min (nrows H) (ncols H))
              / INR (Nat.max (nrows H) (ncols H)) in
  increasing_on (upper_tail quad beta)
                ((1 - sqrt beta) ^ 2) ((1 + sqrt beta) ^ 2) ->
  forall fuel, (13 <= fuel)%nat ->
    exists MPmedian sorted above below x_denoised,
      median_marcenko_pastur quad fuel beta = Return MPmedian
      /\ optimal_svht_coef quad fuel beta false
         = Return (optimal_svht_coef_sigma_known beta / sqrt MPmedian)
      /\ Permutation Sg sorted /\ Sorted Rle sorted
      /\ Permutation Sg (above ++ below)
      /\ let n := length sorted in
         let med := if Nat.even n
                    then (nth (n / 2 - 1) sorted 0 + nth (n / 2) sorted 0) / 2
                    else nth (n / 2) sorted 0 in
         let thresh := optimal_svht_coef_sigma_known beta / sqrt MPmedian * med in
         Forall (fun s => thresh < s) above
         /\ Forall (fun s => s <= thresh) below
         /\ denoise_svd quad svd fuel x w None
            = Return (x_denoised, Z.of_nat (length above))
         /\ length x_denoised = length x
         /\ (length above = 0%nat ->
             x_denoised = map Num (np_zeros (length x))).
Proof.
  intros Hw HE Hsvd Hlen HU HVt beta Hinc fuel Hfuel.
  pose proof (hankel_embedding_ok x w ltac:(lia)) as HE'.
  rewrite HE in HE'. injection HE' as HH.
  destruct (hankel_shape x (Z.to_nat w)) as (Hm & Hn & _); [lia |].
  rewrite <- HH in Hm, Hn.
  assert (Hbeta : 0 < beta <= 1)
    by (apply aspect_ratio_range; rewrite ?Hm, ?Hn; lia).
  destruct (mp_while_from_support quad beta Hbeta Hinc fuel Hfuel)
    as (lo & hi & Eloop & _).
  assert (EMP : median_marcenko_pastur quad fuel beta = Return ((hi + lo) / 2)).
  { unfold median_marcenko_pastur. rewrite Eloop. reflexivity. }
  destruct (np_median_number Sg) as (sorted & Hperm & Hsorted & Emed);
    [rewrite Hlen, Hm, Hn; lia |].
  cbv zeta in Emed.
  set (med := if Nat.even (length sorted)
              then (nth (length sorted / 2 - 1) sorted 0
                    + nth (length sorted / 2) sorted 0) / 2
              else nth (length sorted / 2) sorted 0) in *.
  set (thresh := optimal_svht_coef_sigma_known beta / sqrt ((hi + lo) / 2) * med).
  destruct (count_above_partition Sg thresh)
    as (above & below & Hsplit & Habove & Hbelow & Ecount).
  pose proof (count_above_le Sg thresh) as Hcount.
  set (S_r := np_diag (firstn (Z.to_nat (Z.of_nat (count_above Sg thresh))) Sg
                         ++ np_zeros (Z.to_nat (Z.of_nat (length Sg)
                                                - Z.of_nat (count_above Sg thresh))))).
  destruct (matmul_shape U S_r) as [HU1 _]; [rewrite HU, Hm; lia |].
  destruct (matmul_shape (matmul U S_r) Vt) as [Hrows Hcols];
    [rewrite HU1, HU, Hm; lia |].
  assert (Hshape : (nrows (matmul (matmul U S_r) Vt)
                    + ncols (matmul (matmul U S_r) Vt) = length x + 1)%nat)
    by (rewrite Hrows, Hcols, HU1, HU, HVt, Hm, Hn; lia).
  destruct (diagonal_sums_ok _ (length x) ltac:(rewrite Hshape; lia))
    as (xd & cnt & Esum & Lx & Lc & V).
  assert (Erun : denoise_svd quad svd fuel x w None
                 = Return (divide xd cnt, Z.of_nat (count_above Sg thresh))).
  { unfold denoise_svd. rewrite HE. cbn [bind]. rewrite Hsvd.
    unfold select_rank, optimal_svht_coef, optimal_svht_coef_sigma_unknown.
    fold beta. rewrite EMP. cbn [bind]. rewrite Emed.
    cbn [np_scale np_count_above bind]. fold thresh. unfold truncate.
    destruct (Z.ltb_spec (Z.of_nat (length Sg)
                          - Z.of_nat (count_above Sg thresh)) 0) as [Hneg | _];
      [lia |].
    cbn [bind]. fold S_r. unfold diagonal_averaging. rewrite Esum.
    reflexivity. }
  exists ((hi + lo) / 2), sorted, above, below, (divide xd cnt).
  split; [exact EMP |]. split.
  { unfold optimal_svht_coef, optimal_svht_coef_sigma_unknown.
    rewrite EMP. reflexivity. }
  split; [exact Hperm |]. split; [exact Hsorted |]. split; [exact Hsplit |].
  cbv zeta. fold med. fold thresh.
  split; [exact Habove |]. split; [exact Hbelow |].
  split; [rewrite <- Ecount; exact Erun |].
  split; [rewrite divide_length; congruence |].
  intros Hzero. rewrite <- Ecount in Hzero.
  assert (Hz : Forall all_zero (matmul (matmul U S_r) Vt)).
  { apply matmul_zero_l, matmul_zero_r. intros j. unfold S_r.
    rewrite Hzero. cbn [Z.of_nat Z.to_nat firstn app].
    rewrite Z.sub_0_r, Nat2Z.id.
    apply column_diag_zeros. }
  pose proof (zero_average _ (length x) Hz
                           ltac:(rewrite Hrows, HU1, HU, Hm; lia)
                           ltac:(rewrite Hcols, HVt, Hn; lia) Hshape) as Eavg.
  unfold diagonal_averaging in Eavg. rewrite Esum in Eavg.
  cbn [bind] in Eavg. injection Eavg as Eavg. exact Eavg.
Qed.

(** The run on a series of one entry with the window 0 and no rank. *)
Lemma window_zero_run (quad : (R -> R) -> R -> R -> R) :
  denoise_svd quad (fun _ => ([[]; []], [], [])) 1 [1] 0 None
  = Return ([Nan], 0%Z).
Proof.
  unfold denoise_svd, hankel_embedding, sliding_window_view.
  cbn [length Z.of_nat Z.ltb Z.compare bind Z.to_nat Nat.add Nat.sub seq map].
  unfold select_rank, optimal_svht_coef, optimal_svht_coef_sigma_unknown,
    median_marcenko_pastur.
  cbn [nrows ncols length hd Nat.min Nat.max].
  replace (INR 0 / INR 2) with 0 by (simpl; lra).
  rewrite sqrt_0. cbn [mp_while andb]. unfold Rltb.
  destruct (Rlt_dec 0.001 ((1 + 0) ^ 2 - (1 - 0) ^ 2)) as [Hwide | _];
    [simpl in Hwide; lra |].
  cbn [bind]. unfold np_median. cbn [np_sort fold_right length Nat.eqb].
  cbn [np_scale np_count_above Z.of_nat bind].
  unfold truncate. cbn [length Z.of_nat Z.sub Z.opp Z.add Z.ltb Z.compare bind].
  unfold diagonal_averaging, diagonal_sums. cbn.
  unfold np_div. destruct (Req_EM_T 0 0) as [_ | Hne]; [| contradiction].
  reflexivity.
Qed.

(** C3 (as stated) fails for the window [w = 0], which the code accepts:
    the embedding has no column, there is no singular value, the median is
    [nan], the rank is 0 and no index of the output is reached, so the
    series that comes back is [nan], not zero. *)
Lemma automatic_rank_window_zero :
  denoise_svd (fun _ a b => (b - a) / 4) (fun _ => ([[]; []], [], []))
              1 [1] 0 None
  = Return ([Nan], 0%Z)
  /\ [Nan] <> map Num (np_zeros 1).
Proof.
  split; [apply window_zero_run | discriminate].
Qed.

(** ** The smoothing stage *)

Lemma Zceil_IZR (z : Z) : Zceil (IZR z) = z.
Proof.
  unfold Zceil.
  assert (Hup : (- z + 1)%Z = up (- IZR z)).
  { apply tech_up; rewrite plus_IZR, opp_IZR; lra. }
  rewrite <- Hup. lia.
Qed.

Lemma np_arange_unit (N : nat) :
  np_arange 1 (INR N + 1) 1 = map (fun i => 1 + INR i * 1) (seq 0 N).
Proof.
  unfold np_arange.
  replace ((INR N + 1 - 1) / 1) with (IZR (Z.of_nat N))
    by (rewrite <- INR_IZR_INZ; lra).
  rewrite Zceil_IZR, Nat2Z.id. reflexivity.
Qed.

Lemma np_arange_half (N : nat) :
  np_arange 1 (INR N + 1) 0.5 = map (fun i => 1 + INR i * 0.5) (seq 0 (2 * N)).
Proof.
  unfold np_arange.
  replace ((INR N + 1 - 1) / 0.5) with (IZR (Z.of_nat (2 * N)))
    by (rewrite <- INR_IZR_INZ, mult_INR; simpl; lra).
  rewrite Zceil_IZR, Nat2Z.id. reflexivity.
Qed.

Lemma every_second_length (n : nat) :
  forall a : vector, length a = (2 * n)%nat -> length (every_second a) = n.
Proof.
  induction n as [| n IH]; intros [| p [| q a]] Hlen; simpl in *;
    try lia; trivial.
  f_equal. apply IH. lia.
Qed.

Lemma every_second_nth (n : nat) :
  forall (a : vector) (k : nat),
    length a = (2 * n)%nat -> (k < n)%nat ->
    nth k (every_second a) 0 = nth (2 * k) a 0.
Proof.
  induction n as [| n IH]; intros [| p [| q a]] k Hlen Hk;
    cbn [length] in Hlen; try lia.
  destruct k as [| k]; [reflexivity |].
  replace (2 * S k)%nat with (S (S (2 * k))) by lia.
  cbn [nth every_second]. apply IH; lia.
Qed.

(** Every second point of the fine grid is a knot. *)
Lemma every_second_time2 (N : nat) :
  every_second (np_arange 1 (INR N + 1) 0.5) = np_arange 1 (INR N + 1) 1.
Proof.
  rewrite np_arange_unit, np_arange_half.
  apply (nth_ext _ _ 0 0).
  - rewrite (every_second_length N) by (rewrite length_map, length_seq; lia).
    rewrite length_map, length_seq. reflexivity.
  - intros k Hk.
    rewrite (every_second_length N) in Hk
      by (rewrite length_map, length_seq; lia).
    rewrite (every_second_nth N) by (rewrite ?length_map, ?length_seq; lia).
    rewrite !nth_map_seq by lia.
    rewrite mult_INR. simpl. lra.
Qed.

Lemma every_second_map (f : R -> R) (n : nat) :
  forall a : vector,
    length a = (2 * n)%nat -> every_second (map f a) = map f (every_second a).
Proof.
  induction n as [| n IH]; intros [| p [| q a]] Hlen; simpl in *;
    try lia; trivial.
  f_equal. apply IH. lia.
Qed.

Lemma assign_column_same (N : nat) (v : vector) :
  length v = N -> assign_column N v = Return v.
Proof.
  intros Hlen. unfold assign_column. rewrite Hlen, Nat.eqb_refl. reflexivity.
Qed.

(** The resampled column, whatever the spline. *)
Lemma spline_column_knots
      (CubicSpline : vector -> vector -> outcome (R -> R))
      (column : vector) (cs : R -> R) :
  CubicSpline (np_arange 1 (INR (length column) + 1) 1) column = Return cs ->
  spline_column CubicSpline column
  = Return (map cs (np_arange 1 (INR (length column) + 1) 1)).
Proof.
  intros Hcs. unfold spline_column. rewrite Hcs. cbn [bind].
  assert (Hlen2 : length (np_arange 1 (INR (length column) + 1) 0.5)
                  = (2 * length column)%nat)
    by (rewrite np_arange_half, length_map, length_seq; reflexivity).
  rewrite (every_second_map cs (length column)) by exact Hlen2.
  rewrite every_second_time2.
  apply assign_column_same.
  rewrite np_arange_unit, !length_map, length_seq. reflexivity.
Qed.

(** C9: for a series of length [N >= 2] and an odd window no longer than
    [N], the Savitzky-Golay filter followed by the spline pass returns a
    series of length [N]. *)
Theorem smoothing_length_invariance
        (savgol_filter : vector -> nat -> nat -> outcome vector)
        (CubicSpline : vector -> vector -> outcome (R -> R))
        (window_length polyorder : nat) (denoised : vector) :
  (2 <= length denoised)%nat ->
  Nat.odd window_length = true ->
  (window_length <= length denoised)%nat ->
  (polyorder < window_length)%nat ->
  (forall x, Nat.odd window_length = true ->
             (window_length <= length x)%nat ->
             exists filtered,
               savgol_filter x window_length polyorder = Return filtered
               /\ length filtered = length x) ->
  (forall y, (2 <= length y)%nat ->
             exists cs,
               CubicSpline (np_arange 1 (INR (length y) + 1) 1) y = Return cs) ->
  exists smoothed,
    smooth savgol_filter CubicSpline window_length polyorder denoised
    = Return smoothed
    /\ length smoothed = length denoised.
Proof.
  intros HN Hodd Hwin Hord Hsavgol Hspline.
  destruct (Hsavgol denoised Hodd Hwin) as (filtered & Efilt & Lfilt).
  destruct (Hspline filtered) as (cs & Ecs); [lia |].
  unfold smooth, filter_column. rewrite Efilt. cbn [bind].
  rewrite assign_column_same by exact Lfilt. cbn [bind].
  rewrite (spline_column_knots CubicSpline filtered cs Ecs).
  eexists. split; [reflexivity |].
  rewrite np_arange_unit, !length_map, length_seq. exact Lfilt.
Qed.

Lemma smoothing_length_invariance_witness :
  exists smoothed,
    smooth (fun x _ _ => Return x) (fun _ _ => Return (fun t => t))
           3 1 [4; 5; 6]
    = Return smoothed
    /\ length smoothed = 3%nat.
Proof.
  apply (smoothing_length_invariance
           (fun x _ _ => Return x) (fun _ _ => Return (fun t => t))
           3 1 [4; 5; 6]).
  - simpl. lia.
  - reflexivity.
  - simpl. lia.
  - lia.
  - intros x _ _. exists x. split; reflexivity.
  - intros y _. eexists. reflexivity.
Defined.

(** C10: the fine grid [arange(1, N+1, 0.5)] taken at every second point is
    the knot grid [arange(1, N+1)], so for a spline that passes through its
    data the spline pass returns the column unchanged. *)
Theorem spline_round_trip
        (CubicSpline : vector -> vector -> outcome (R -> R))
        (column : vector) (cs : R -> R) :
  (2 <= length column)%nat ->
  let time1 := np_arange 1 (INR (length column) + 1) 1 in
  let time2 := np_arange 1 (INR (length column) + 1) 0.5 in
  CubicSpline time1 column = Return cs ->
  (forall k, (k < length column)%nat -> cs (nth k time1 0) = nth k column 0) ->
  every_second time2 = time1
  /\ length time1 = length column
  /\ spline_column CubicSpline column = Return column.
Proof.
  intros HN time1 time2 Hcs Hinterp.
  assert (Hlen1 : length time1 = length column)
    by (unfold time1; rewrite np_arange_unit, length_map, length_seq;
        reflexivity).
  split; [apply every_second_time2 |]. split; [exact Hlen1 |].
  rewrite (spline_column_knots CubicSpline column cs Hcs). f_equal.
  fold time1. apply (nth_ext _ _ 0 0).
  - rewrite length_map. exact Hlen1.
  - intros k Hk. rewrite length_map, Hlen1 in Hk.
    rewrite (nth_indep _ 0 (cs 0)) by (rewrite length_map; lia).
    rewrite map_nth. apply Hinterp. exact Hk.
Qed.

Lemma spline_round_trip_witness :
  spline_column (fun _ _ => Return (fun t => 5 + 2 * (t - 1))) [5; 7]
  = Return [5; 7].
Proof.
  apply (spline_round_trip
           (fun _ _ => Return (fun t => 5 + 2 * (t - 1))) [5; 7]
           (fun t => 5 + 2 * (t - 1))).
  - simpl. lia.
  - reflexivity.
  - intros k Hk. rewrite np_arange_unit.
    destruct k as [| [| k]]; simpl in *; try lia; lra.
Defined.

(** * Further properties of the denoiser *)

Lemma for_each_invariant {A St : Type} (P : St -> Prop)
      (body : A -> St -> outcome St) (idx : list A) :
  (forall i s s', body i s = Return s' -> P s -> P s') ->
  forall s s', for_each idx body s = Return s' -> P s -> P s'.
Proof.
  intros Hbody. induction idx as [| i idx IH]; intros s s' Hrun Hs; simpl in Hrun.
  - injection Hrun as <-. exact Hs.
  - destruct (body i s) as [s1 | e |] eqn:E1; simpl in Hrun; try discriminate.
    apply (IH s1 s' Hrun). exact (Hbody i s s1 E1 Hs).
Qed.

Lemma for_each_failure {A St : Type} (Q : outcome St -> Prop)
      (body : A -> St -> outcome St) (idx : list A) :
  (forall i s, match body i s with Return _ => True | o => Q o end) ->
  forall s, match for_each idx body s with Return _ => True | o => Q o end.
Proof.
  intros Hbody. induction idx as [| i idx IH]; intros s; simpl; [trivial |].
  pose proof (Hbody i s) as Hi.
  destruct (body i s) as [s1 | e |]; simpl; [apply IH | exact Hi | exact Hi].
Qed.

Lemma add_at_length (k : nat) (v : R) (a a' : vector) :
  add_at k v a = Return a' -> length a' = length a.
Proof.
  unfold add_at. destruct (nth_error a k) as [old |] eqn:E; [| discriminate].
  intros Hret.
  assert (Ha' : a' = firstn k a ++ (old + v) :: skipn (S k) a) by congruence.
  assert (Hk : (k < length a)%nat) by (apply nth_error_Some; congruence).
  rewrite Ha', length_app, length_firstn, length_cons, length_skipn. lia.
Qed.

Lemma add_at_failure (k : nat) (v : R) (a : vector) :
  match add_at k v a with
  | Return _ => True
  | o => o = Raise IndexError
  end.
Proof. unfold add_at. destruct (nth_error a k); trivial. Qed.

(** The double loop keeps the two arrays at length [N], and the only way it
    fails is an index error. *)
Lemma diagonal_sums_lengths (Hd : matrix) (N : nat) (xd cnt : vector) :
  diagonal_sums Hd N = Return (xd, cnt) -> length xd = N /\ length cnt = N.
Proof.
  unfold diagonal_sums. intros Hrun.
  set (P := fun s : vector * vector => length (fst s) = N /\ length (snd s) = N).
  assert (Hcell : forall i j (s s' : vector * vector),
             (let '(x_denoised, count) := s in
              x_denoised' <- add_at (i + j) (entry Hd i j) x_denoised ;;
              count' <- add_at (i + j) 1 count ;;
              Return (x_denoised', count')) = Return s' ->
             P s -> P s').
  { intros i j [a b] s' Hstep [Ha Hb]. cbn [fst snd] in *.
    destruct (add_at (i + j) (entry Hd i j) a) as [a1 | |] eqn:E1;
      simpl in Hstep; try discriminate.
    destruct (add_at (i + j) 1 b) as [b1 | |] eqn:E2;
      simpl in Hstep; try discriminate.
    injection Hstep as <-. unfold P. cbn [fst snd].
    rewrite (add_at_length _ _ _ _ E1), (add_at_length _ _ _ _ E2).
    split; assumption. }
  apply (for_each_invariant P _ _
           (fun i s s' Hrow => for_each_invariant P _ _ (Hcell i) s s' Hrow)
           _ _ Hrun).
  unfold P, np_zeros. cbn [fst snd]. rewrite repeat_length. split; reflexivity.
Qed.

Lemma diagonal_sums_failure (Hd : matrix) (N : nat) :
  match diagonal_sums Hd N with
  | Return _ => True
  | o => o = Raise IndexError
  end.
Proof.
  unfold diagonal_sums.
  apply (for_each_failure (fun o => o = Raise IndexError)).
  intros i s. apply (for_each_failure (fun o => o = Raise IndexError)).
  intros j [a b].
  pose proof (add_at_failure (i + j) (entry Hd i j) a) as H1.
  destruct (add_at (i + j) (entry Hd i j) a) as [a1 | e |]; simpl;
    try (injection H1 as ->; reflexivity); try discriminate H1.
  pose proof (add_at_failure (i + j) 1 b) as H2.
  destruct (add_at (i + j) 1 b) as [b1 | e |]; simpl; trivial;
    try (injection H2 as ->; reflexivity); try discriminate H2.
Qed.

Lemma diagonal_averaging_length (Hd : matrix) (N : nat) (xd : list npfloat) :
  diagonal_averaging Hd N = Return xd -> length xd = N.
Proof.
  unfold diagonal_averaging.
  destruct (diagonal_sums Hd N) as [[a b] | e |] eqn:E; simpl; try discriminate.
  intros Hret. injection Hret as <-.
  destruct (diagonal_sums_lengths Hd N a b E) as [Ha Hb].
  rewrite divide_length; congruence.
Qed.

Lemma diagonal_averaging_failure (Hd : matrix) (N : nat) :
  match diagonal_averaging Hd N with
  | Return _ => True
  | o => o = Raise IndexError
  end.
Proof.
  unfold diagonal_averaging.
  pose proof (diagonal_sums_failure Hd N) as Hs.
  destruct (diagonal_sums Hd N) as [[a b] | e |]; simpl; trivial;
    try (injection Hs as ->; reflexivity); discriminate Hs.
Qed.

(** X1: averaging the anti-diagonals of the embedding of a series gives the
    series back (every entry a number, that of the input), for every window
    [1 <= w <= N]. *)
Theorem embedding_average_round_trip (x : vector) (w : Z) :
  (1 <= w <= Z.of_nat (length x))%Z ->
  (H <- hankel_embedding x w ;; diagonal_averaging H (length x))
  = Return (map Num x).
Proof.
  intros Hw. rewrite hankel_embedding_ok by lia. cbn [bind].
  apply hankel_average. lia.
Qed.

Lemma embedding_average_round_trip_witness :
  (H <- hankel_embedding [1; 2; 4; 8] 2 ;; diagonal_averaging H 4)
  = Return [Num 1; Num 2; Num 4; Num 8].
Proof.
  apply (embedding_average_round_trip [1; 2; 4; 8] 2). simpl. lia.
Defined.

(** X2: with a supplied rank, [denoise_svd] raises its window error exactly
    when [w > N], and its rank error exactly when the window is accepted
    ([0 <= w <= N]) and [r <= 0] or [r > w]; the window is checked first. *)
Theorem supplied_rank_errors
        (quad : (R -> R) -> R -> R -> R)
        (svd : matrix -> matrix * vector * matrix)
        (fuel : nat) (x : vector) (w r : Z) :
  (denoise_svd quad svd fuel x w (Some r) = Raise InvalidWindow
   <-> (Z.of_nat (length x) < w)%Z)
  /\ (denoise_svd quad svd fuel x w (Some r) = Raise InvalidRank
      <-> (0 <= w <= Z.of_nat (length x))%Z /\ (r <= 0 \/ w < r)%Z).
Proof.
  unfold denoise_svd, hankel_embedding, sliding_window_view.
  destruct (Z.ltb_spec (Z.of_nat (length x)) w) as [Hgt | Hle]; cbn [bind].
  { split; split; intros; trivial; try discriminate; lia. }
  destruct (Z.ltb_spec w 0) as [Hneg | Hpos]; cbn [bind].
  { split; split; intros; trivial; try discriminate; lia. }
  match goal with |- context [svd ?M] => destruct (svd M) as [[U Sg] Vt] end.
  unfold select_rank.
  destruct (Z.leb_spec r 0) as [Hr0 | Hr1]; cbn [orb bind].
  { split; split; intros; trivial; try discriminate; lia. }
  destruct (Z.ltb_spec w r) as [Hwr | Hrw]; cbn [bind].
  { split; split; intros; trivial; try discriminate; lia. }
  unfold truncate.
  destruct (Z.ltb_spec (Z.of_nat (length Sg) - r) 0) as [Hshort | Hlong];
    cbn [bind].
  { split; split; intros; trivial; try discriminate; lia. }
  match goal with
  | |- context [diagonal_averaging ?M ?n] =>
      pose proof (diagonal_averaging_failure M n) as Hfail;
      destruct (diagonal_averaging M n) as [xd | e |]
  end; cbn [bind];
    try (injection Hfail as ->); try discriminate Hfail;
    split; split; intros; trivial; try discriminate; lia.
Qed.

Lemma supplied_rank_errors_witness :
  denoise_svd (fun _ a b => (b - a) / 4) (fun _ => ([], [], []))
              0 [1; 2; 3] 2 (Some 3%Z)
  = Raise InvalidRank.
Proof.
  apply (proj2 (supplied_rank_errors
                  (fun _ a b => (b - a) / 4) (fun _ => ([], [], []))
                  0%nat [1; 2; 3] 2%Z 3%Z)).
  simpl. lia.
Defined.

(** With the factors shaped as [np.linalg.svd] shapes them, the product
    [U @ S_r @ Vt] has the shape of the embedding, whatever [S_r] is, and
    the averaging loop accepts it. *)
Lemma reconstruction_returns (x : vector) (w : Z) (H U Vt S_r : matrix) :
  (1 <= w <= Z.of_nat (length x))%Z ->
  hankel_embedding x w = Return H ->
  nrows U = nrows H -> ncols Vt = ncols H ->
  exists x_denoised,
    diagonal_averaging (matmul (matmul U S_r) Vt) (length x) = Return x_denoised
    /\ length x_denoised = length x.
Proof.
  intros Hw HE HU HVt.
  pose proof (hankel_embedding_ok x w ltac:(lia)) as HE'.
  rewrite HE in HE'. injection HE' as HH.
  destruct (hankel_shape x (Z.to_nat w)) as (Hm & Hn & _); [lia |].
  rewrite <- HH in Hm, Hn.
  destruct (matmul_shape U S_r) as [HU1 _]; [rewrite HU, Hm; lia |].
  destruct (matmul_shape (matmul U S_r) Vt) as [Hrows Hcols];
    [rewrite HU1, HU, Hm; lia |].
  destruct (diagonal_sums_ok (matmul (matmul U S_r) Vt) (length x))
    as (xd & cnt & E & Lx & Lc & _);
    [rewrite Hrows, Hcols, HU1, HU, HVt, Hm, Hn; lia |].
  unfold diagonal_averaging. rewrite E. cbn [bind].
  eexists. split; [reflexivity |]. rewrite divide_length; congruence.
Qed.

Lemma divide_numbers (a b : vector) :
  length a = length b -> Forall (fun q => q <> 0) b ->
  exists v, divide a b = map Num v /\ length v = length a.
Proof.
  revert b. induction a as [| p a IH]; intros [| q b] Hlen Hb;
    try discriminate Hlen.
  - exists []. split; reflexivity.
  - inversion Hb as [| ? ? Hq Hrest]; subst.
    destruct (IH b ltac:(simpl in Hlen; congruence) Hrest) as (v & Ev & Lv).
    exists (p / q :: v). cbn [divide map length].
    rewrite (np_div_number p q Hq), Ev, Lv. split; reflexivity.
Qed.

(** With the factors shaped as [np.linalg.svd] shapes them and a window
    [1 <= w <= N], every index of the output is reached, and the series
    that comes back is a series of numbers. *)
Lemma reconstruction_numbers (x : vector) (w : Z) (H U Vt S_r : matrix) :
  (1 <= w <= Z.of_nat (length x))%Z ->
  hankel_embedding x w = Return H ->
  nrows U = nrows H -> ncols Vt = ncols H ->
  exists x_denoised,
    diagonal_averaging (matmul (matmul U S_r) Vt) (length x)
    = Return (map Num x_denoised)
    /\ length x_denoised = length x.
Proof.
  intros Hw HE HU HVt.
  pose proof (hankel_embedding_ok x w ltac:(lia)) as HE'.
  rewrite HE in HE'. injection HE' as HH.
  destruct (hankel_shape x (Z.to_nat w)) as (Hm & Hn & _); [lia |].
  rewrite <- HH in Hm, Hn.
  destruct (matmul_shape U S_r) as [HU1 _]; [rewrite HU, Hm; lia |].
  destruct (matmul_shape (matmul U S_r) Vt) as [Hrows Hcols];
    [rewrite HU1, HU, Hm; lia |].
  destruct (diagonal_sums_ok (matmul (matmul U S_r) Vt) (length x))
    as (xd & cnt & E & Lx & Lc & V);
    [rewrite Hrows, Hcols, HU1, HU, HVt, Hm, Hn; lia |].
  unfold diagonal_averaging. rewrite E. cbn [bind].
  destruct (divide_numbers xd cnt) as (v & Ev & Lv); [congruence | |].
  - apply Forall_forall. intros q Hq.
    destruct (In_nth cnt q 0 Hq) as (k & Hk & <-).
    destruct (V k) as [_ Vc]. rewrite Vc.
    assert (Hpos : 1 <= INR (diagonal_size
                               (nrows (matmul (matmul U S_r) Vt))
                               (ncols (matmul (matmul U S_r) Vt)) k)).
    { change 1 with (INR 1). apply le_INR.
      rewrite Hrows, Hcols, HU1, HU, HVt, Hm, Hn. unfold diagonal_size. lia. }
    lra.
  - exists v. rewrite Ev. split; [reflexivity | congruence].
Qed.

(** X3: a supplied rank between 1 and the number [min(N - w + 1, w)] of
    singular values is accepted: the call returns a series of length [N]
    together with that rank. *)
Theorem supplied_rank_returns
        (quad : (R -> R) -> R -> R -> R)
        (svd : matrix -> matrix * vector * matrix)
        (fuel : nat) (x : vector) (w r : Z) (H U Vt : matrix) (Sg : vector) :
  (1 <= w <= Z.of_nat (length x))%Z ->
  (1 <= r <= Z.min (Z.of_nat (length x) - w + 1) w)%Z ->
  hankel_embedding x w = Return H ->
  svd H = (U, Sg, Vt) ->
  length Sg = Nat.min (nrows H) (ncols H) ->
  nrows U = nrows H -> ncols Vt = ncols H ->
  exists x_denoised,
    denoise_svd quad svd fuel x w (Some r) = Return (x_denoised, r)
    /\ length x_denoised = length x.
Proof.
  intros Hw Hr HE Hsvd Hlen HU HVt.
  pose proof (hankel_embedding_ok x w ltac:(lia)) as HE'.
  rewrite HE in HE'. injection HE' as HH.
  destruct (hankel_shape x (Z.to_nat w)) as (Hm & Hn & _); [lia |].
  rewrite <- HH in Hm, Hn.
  unfold denoise_svd. rewrite HE. cbn [bind]. rewrite Hsvd.
  unfold select_rank.
  destruct (Z.leb_spec r 0) as [Hr0 | _]; [lia |].
  destruct (Z.ltb_spec w r) as [Hwr | _]; [lia |].
  cbn [orb bind]. unfold truncate.
  destruct (Z.ltb_spec (Z.of_nat (length Sg) - r) 0) as [Hneg | _]; [lia |].
  cbn [bind].
  match goal with
  | |- context [matmul (matmul U ?M) Vt] =>
      destruct (reconstruction_returns x w H U Vt M Hw HE HU HVt)
        as (xd & E & Lxd)
  end.
  rewrite E. cbn [bind]. exists xd. split; [reflexivity | exact Lxd].
Qed.

Lemma supplied_rank_returns_witness :
  exists x_denoised,
    denoise_svd (fun _ a b => (b - a) / 4)
                (fun _ => ([[1; 0]; [0; 1]], [7; 1], [[1; 0]; [0; 1]]))
                0 [1; 2; 3] 2 (Some 1%Z)
    = Return (x_denoised, 1%Z)
    /\ length x_denoised = 3%nat.
Proof.
  apply (supplied_rank_returns
           (fun _ a b => (b - a) / 4)
           (fun _ => ([[1; 0]; [0; 1]], [7; 1], [[1; 0]; [0; 1]]))
           0%nat [1; 2; 3] 2%Z 1%Z
           [[1; 2]; [2; 3]] [[1; 0]; [0; 1]] [[1; 0]; [0; 1]] [7; 1]);
    try reflexivity; simpl; lia.
Defined.

(** X4: whatever the decomposition, a result of [denoise_svd] (a series of
    numbers or, as for the window 0, of [nan]) has the length of the input,
    its rank lies between 0 and the number of singular values, and a
    supplied rank is returned as it was given, having passed
    [1 <= r <= w]. *)
Theorem denoise_result_invariants
        (quad : (R -> R) -> R -> R -> R)
        (svd : matrix -> matrix * vector * matrix)
        (fuel : nat) (x : vector) (w : Z) (r : option Z)
        (x_denoised : list npfloat) (rank : Z) :
  denoise_svd quad svd fuel x w r = Return (x_denoised, rank) ->
  length x_denoised = length x
  /\ (0 <= w <= Z.of_nat (length x))%Z
  /\ (forall r0, r = Some r0 -> rank = r0 /\ (1 <= r0 <= w)%Z)
  /\ exists H U Sg Vt,
      hankel_embedding x w = Return H /\ svd H = (U, Sg, Vt)
      /\ (0 <= rank <= Z.of_nat (length Sg))%Z.
Proof.
  unfold denoise_svd. intros Hrun.
  assert (Hwin : (0 <= w <= Z.of_nat (length x))%Z).
  { unfold hankel_embedding, sliding_window_view in Hrun.
    destruct (Z.ltb_spec (Z.of_nat (length x)) w); [discriminate |].
    destruct (Z.ltb_spec w 0); [discriminate | lia]. }
  destruct (hankel_embedding x w) as [H | |] eqn:HE; try discriminate.
  cbn [bind] in Hrun.
  destruct (svd H) as [[U Sg] Vt] eqn:Hsvd.
  destruct (select_rank quad fuel H Sg w r) as [rk | |] eqn:Hsel;
    try discriminate.
  cbn [bind] in Hrun. unfold truncate in Hrun.
  destruct (Z.ltb_spec (Z.of_nat (length Sg) - rk) 0) as [Hneg | Hfit];
    [discriminate |].
  cbn [bind] in Hrun.
  match type of Hrun with
  | context [diagonal_averaging ?M ?n] =>
      destruct (diagonal_averaging M n) as [xd | |] eqn:Eavg; try discriminate
  end.
  cbn [bind] in Hrun. injection Hrun as <- <-.
  assert (Hrk : (forall r0, r = Some r0 -> rk = r0 /\ (1 <= r0 <= w)%Z)
                /\ (0 <= rk)%Z).
  { unfold select_rank in Hsel. destruct r as [r0 |].
    - destruct (Z.leb_spec r0 0); [discriminate |].
      destruct (Z.ltb_spec w r0); [discriminate |].
      cbn [orb] in Hsel. injection Hsel as <-.
      split; [| lia]. intros r1 Hr1. injection Hr1 as <-. lia.
    - split; [discriminate |].
      destruct (optimal_svht_coef quad fuel _ false); try discriminate.
      cbn [bind] in Hsel. injection Hsel as <-. lia. }
  destruct Hrk as [Hgiven Hnonneg].
  split; [exact (diagonal_averaging_length _ _ _ Eavg) |].
  split; [exact Hwin |]. split; [exact Hgiven |].
  exists H, U, Sg, Vt. repeat split; trivial; lia.
Qed.

Lemma denoise_result_invariants_witness :
  length [Nan] = length [1]
  /\ (0 <= 0 <= Z.of_nat (length [1]))%Z
  /\ (forall r0, None = Some r0 -> 0%Z = r0 /\ (1 <= r0 <= 0)%Z)
  /\ exists (H U : matrix) (Sg : vector) (Vt : matrix),
      hankel_embedding [1] 0 = Return H
      /\ (fun _ : matrix => ([[]; []], [], [])) H = (U, Sg, Vt)
      /\ (0 <= 0 <= Z.of_nat (length Sg))%Z.
Proof.
  apply (denoise_result_invariants
           (fun _ a b => (b - a) / 4) (fun _ => ([[]; []], [], []))
           1%nat [1] 0%Z None [Nan] 0%Z).
  apply window_zero_run.
Defined.

Lemma count_above_cons (a : R) (l : vector) (t : R) :
  count_above (a :: l) t
  = if Rlt_dec t a then S (count_above l t) else count_above l t.
Proof.
  unfold count_above. cbn [filter]. destruct (Rlt_dec t a); reflexivity.
Qed.

Lemma count_above_none (l : vector) (t : R) :
  (forall b, In b l -> b <= t) -> count_above l t = 0%nat.
Proof.
  induction l as [| a l IH]; intros Hall; [reflexivity |].
  rewrite count_above_cons.
  destruct (Rlt_dec t a) as [Hlt | _].
  - pose proof (Hall a (or_introl eq_refl)). lra.
  - apply IH. intros b Hb. apply Hall. right. exact Hb.
Qed.

Lemma zeros_of_all_zero (l : vector) :
  (forall b, In b l -> b = 0) -> l = np_zeros (length l).
Proof.
  induction l as [| a l IH]; intros Hall; [reflexivity |].
  cbn [length np_zeros repeat]. fold (np_zeros (length l)).
  rewrite (Hall a (or_introl eq_refl)). f_equal.
  apply IH. intros b Hb. apply Hall. right. exact Hb.
Qed.

(** Descending non-negative values: those that are positive come first, and
    cutting after them removes zeros only. *)
Lemma truncate_at_positive (Sg : vector) :
  descending Sg -> (forall s, In s Sg -> 0 <= s) ->
  firstn (count_above Sg 0) Sg ++ np_zeros (length Sg - count_above Sg 0) = Sg.
Proof.
  induction Sg as [| a l IH]; intros Hdesc Hpos; [reflexivity |].
  destruct Hdesc as [Hhead Htail].
  rewrite count_above_cons.
  destruct (Rlt_dec 0 a) as [Ha | Ha].
  - cbn [length firstn Nat.sub app]. f_equal.
    apply IH; [exact Htail |].
    intros s Hs. apply Hpos. right. exact Hs.
  - assert (Ha0 : a = 0) by (pose proof (Hpos a (or_introl eq_refl)); lra).
    assert (Hzero : forall b, In b l -> b = 0).
    { intros b Hb. pose proof (Hhead b Hb).
      pose proof (Hpos b (or_intror Hb)). lra. }
    rewrite count_above_none
      by (intros b Hb; rewrite (Hzero b Hb); lra).
    cbn [firstn app]. rewrite Nat.sub_0_r.
    cbn [length np_zeros repeat]. fold (np_zeros (length l)).
    rewrite Ha0. f_equal. symmetry. apply zeros_of_all_zero. exact Hzero.
Qed.

(** X5: when the median singular value is zero (the embedding has rank
    below half of its smaller side, as for a constant series), the automatic
    threshold is zero, the rank is the number of positive singular values,
    and the denoised series is the input series. *)
Theorem zero_median_identity
        (quad : (R -> R) -> R -> R -> R)
        (svd : matrix -> matrix * vector * matrix)
        (x : vector) (w : Z) (H U Vt : matrix) (Sg : vector) :
  (1 <= w <= Z.of_nat (length x))%Z ->
  hankel_embedding x w = Return H ->
  svd H = (U, Sg, Vt) ->
  length Sg = Nat.min (nrows H) (ncols H) ->
  matmul (matmul U (np_diag Sg)) Vt = H ->
  descending Sg -> (forall s, In s Sg -> 0 <= s) ->
  np_median Sg = Num 0 ->
  let beta := INR (Nat.min (nrows H) (ncols H))
              / INR (Nat.max (nrows H) (ncols H)) in
  increasing_on (upper_tail quad beta)
                ((1 - sqrt beta) ^ 2) ((1 + sqrt beta) ^ 2) ->
  forall fuel, (13 <= fuel)%nat ->
    denoise_svd quad svd fuel x w None
    = Return (map Num x, Z.of_nat (count_above Sg 0)).
Proof.
  intros Hw HE Hsvd Hlen Hrec Hdesc Hpos Hmed beta Hinc fuel Hfuel.
  pose proof (hankel_embedding_ok x w ltac:(lia)) as HE'.
  rewrite HE in HE'. injection HE' as HH.
  destruct (hankel_shape x (Z.to_nat w)) as (Hm & Hn & _); [lia |].
  rewrite <- HH in Hm, Hn.
  assert (Hbeta : 0 < beta <= 1)
    by (apply aspect_ratio_range; rewrite ?Hm, ?Hn; lia).
  destruct (mp_while_from_support quad beta Hbeta Hinc fuel Hfuel)
    as (lo & hi & Eloop & _).
  pose proof (count_above_le Sg 0) as Hcount.
  unfold denoise_svd. rewrite HE. cbn [bind]. rewrite Hsvd.
  unfold select_rank, optimal_svht_coef, optimal_svht_coef_sigma_unknown,
    median_marcenko_pastur.
  fold beta. rewrite Eloop. cbn [bind]. rewrite Hmed.
  cbn [np_scale np_count_above bind].
  rewrite Rmult_0_r. unfold truncate.
  destruct (Z.ltb_spec (Z.of_nat (length Sg) - Z.of_nat (count_above Sg 0)) 0)
    as [Hneg | _]; [lia |].
  cbn [bind]. rewrite Nat2Z.id.
  replace (Z.to_nat (Z.of_nat (length Sg) - Z.of_nat (count_above Sg 0)))
    with (length Sg - count_above Sg 0)%nat by lia.
  rewrite (truncate_at_positive Sg Hdesc Hpos), Hrec, HH.
  rewrite hankel_average by lia. reflexivity.
Qed.

Lemma zero_median_identity_witness :
  denoise_svd (fun _ a b => (b - a) / 4)
              (fun _ => ([[1; 0; 0]; [1; 0; 0]; [1; 0; 0]], [6; 0; 0],
                         [[1 / 3; 1 / 3; 1 / 3]; [0; 0; 0]; [0; 0; 0]]))
              13 [2; 2; 2; 2; 2] 3 None
  = Return ([Num 2; Num 2; Num 2; Num 2; Num 2],
            Z.of_nat (count_above [6; 0; 0] 0)).
Proof.
  apply (zero_median_identity
           (fun _ a b => (b - a) / 4)
           (fun _ => ([[1; 0; 0]; [1; 0; 0]; [1; 0; 0]], [6; 0; 0],
                      [[1 / 3; 1 / 3; 1 / 3]; [0; 0; 0]; [0; 0; 0]]))
           [2; 2; 2; 2; 2] 3%Z
           [[2; 2; 2]; [2; 2; 2]; [2; 2; 2]]
           [[1; 0; 0]; [1; 0; 0]; [1; 0; 0]]
           [[1 / 3; 1 / 3; 1 / 3]; [0; 0; 0]; [0; 0; 0]]
           [6; 0; 0]).
  - simpl. lia.
  - reflexivity.
  - reflexivity.
  - reflexivity.
  - cbv [matmul np_diag column ncols]. simpl. repeat f_equal; field.
  - simpl. repeat split; intros b Hb;
      repeat (destruct Hb as [<- | Hb]; try lra); try contradiction.
  - intros s Hs. simpl in Hs.
    repeat (destruct Hs as [<- | Hs]; try lra); try contradiction.
  - unfold np_median, np_sort. simpl.
    repeat (destruct (Rle_dec _ _); try lra; simpl); reflexivity.
  - unfold increasing_on, upper_tail. intros p q _ Hpq _. lra.
  - lia.
Defined.

(** * Further properties of the threshold *)

Lemma mp_while_no_exception
      (quad : (R -> R) -> R -> R -> R) (beta : R) :
  beta <= 1 ->
  forall fuel lo hi change e,
    mp_while quad fuel beta lo hi change <> Raise e.
Proof.
  intros Hbeta. induction fuel as [| fuel IH]; intros lo hi change e;
    [discriminate |].
  cbn [mp_while].
  destruct (change && Rltb 0.001 (hi - lo)); [| discriminate].
  rewrite mp_body_tighten by exact Hbeta. cbn [bind]. apply IH.
Qed.

Lemma sqrt_above_one (beta : R) : 1 < beta -> 1 < sqrt beta.
Proof.
  intros Hbeta. rewrite <- sqrt_1 at 1. apply sqrt_lt_1; lra.
Qed.

Lemma mp_while_bad_ratio
      (quad : (R -> R) -> R -> R -> R) (beta : R) (fuel : nat) :
  1 < beta -> (1 <= fuel)%nat ->
  mp_while quad fuel beta ((1 - sqrt beta) ^ 2) ((1 + sqrt beta) ^ 2) true
  = Raise InvalidAspectRatio.
Proof.
  intros Hbeta Hfuel. destruct fuel as [| fuel]; [lia |].
  pose proof (sqrt_above_one beta Hbeta) as Hs.
  cbn [mp_while andb]. unfold Rltb.
  destruct (Rlt_dec 0.001 ((1 + sqrt beta) ^ 2 - (1 - sqrt beta) ^ 2))
    as [_ | Hnarrow]; [| exfalso; apply Hnarrow; simpl; lra].
  unfold mp_body, np_linspace. cbn [seq map map_outcome].
  unfold marpas at 1. unfold inc_mar_pas.
  destruct (Rlt_dec 1 beta) as [_ | Hbad]; [reflexivity | lra].
Qed.

(** X6: the unknown-noise coefficient is refused with the aspect-ratio
    error exactly when [beta > 1] (the error comes from the first integral
    that the median solver asks for); the known-noise coefficient has no
    such check and returns its value for every [beta]. *)
Theorem aspect_ratio_error
        (quad : (R -> R) -> R -> R -> R) (beta : R) (fuel : nat) :
  (1 <= fuel)%nat ->
  (optimal_svht_coef quad fuel beta false = Raise InvalidAspectRatio
   <-> 1 < beta)
  /\ (median_marcenko_pastur quad fuel beta = Raise InvalidAspectRatio
      <-> 1 < beta)
  /\ optimal_svht_coef quad fuel beta true
     = Return (optimal_svht_coef_sigma_known beta).
Proof.
  intros Hfuel.
  assert (Hmed : median_marcenko_pastur quad fuel beta = Raise InvalidAspectRatio
                 <-> 1 < beta).
  { unfold median_marcenko_pastur. split.
    - intros Hraise. destruct (Rlt_dec 1 beta) as [Hgt | Hle]; [exact Hgt |].
      exfalso.
      destruct (mp_while quad fuel beta ((1 - sqrt beta) ^ 2)
                         ((1 + sqrt beta) ^ 2) true) as [[lo hi] | e |] eqn:E;
        cbn [bind] in Hraise; try discriminate.
      apply (mp_while_no_exception quad beta ltac:(lra) _ _ _ _ _ E).
    - intros Hgt. rewrite (mp_while_bad_ratio quad beta fuel Hgt Hfuel).
      reflexivity. }
  split; [| split; [exact Hmed | reflexivity]].
  unfold optimal_svht_coef, optimal_svht_coef_sigma_unknown.
  rewrite <- Hmed.
  destruct (median_marcenko_pastur quad fuel beta) as [m | e |]; cbn [bind];
    split; intros Hx; try discriminate; trivial.
Qed.

Lemma aspect_ratio_error_witness :
  optimal_svht_coef (fun _ a b => (b - a) / 4) 1 2 false
  = Raise InvalidAspectRatio.
Proof.
  apply (proj1 (aspect_ratio_error (fun _ a b => (b - a) / 4) 2 1%nat
                                   ltac:(lia))).
  lra.
Defined.

(** One round on a strictly increasing [F] that crosses 0.5 between the
    bounds: the new bounds still enclose the crossing, and the interval at
    least halves. *)
Lemma tighten_bracket (F : R -> R) (a b lo hi : R) :
  increasing_on F a b -> a <= lo -> hi <= b -> 0.001 < hi - lo ->
  F lo < 0.5 < F hi ->
  let lo' := Spec.tighten_lo F (Spec.grid lo hi) lo in
  let hi' := Spec.tighten_hi F (Spec.grid lo hi) hi in
  lo <= lo' /\ lo' < hi' /\ hi' <= hi /\ hi' - lo' <= (hi - lo) / 2
  /\ F lo' < 0.5 < F hi'.
Proof.
  intros Hinc Ha Hb Hwide [Hlo Hhi].
  assert (H01 : F lo < F (lo + (hi - lo) / 4)) by (apply Hinc; lra).
  assert (H12 : F (lo + (hi - lo) / 4) < F (lo + 2 * ((hi - lo) / 4)))
    by (apply Hinc; lra).
  assert (H23 : F (lo + 2 * ((hi - lo) / 4)) < F (lo + 3 * ((hi - lo) / 4)))
    by (apply Hinc; lra).
  assert (H34 : F (lo + 3 * ((hi - lo) / 4)) < F hi) by (apply Hinc; lra).
  unfold Spec.tighten_lo, Spec.tighten_hi, Spec.grid, Rltb.
  cbn [filter].
  clear Hinc.
  repeat match goal with
         | |- context [Rlt_dec ?p ?q] =>
             destruct (Rlt_dec p q); try (exfalso; lra)
         end;
    cbn [fold_left];
    unfold Rmax, Rmin;
    repeat match goal with
           | |- context [Rle_dec ?p ?q] =>
               lazymatch p with
               | context [Rle_dec _ _] => fail
               | _ => destruct (Rle_dec p q); try (exfalso; lra)
               end
           end;
    repeat split; lra.
Qed.

Section Bracket.

Variable quad : (R -> R) -> R -> R -> R.
Variable beta : R.
Hypothesis beta_range : 0 < beta <= 1.

Let F := upper_tail quad beta.
Let topSpec := (1 + sqrt beta) ^ 2.
Let botSpec := (1 - sqrt beta) ^ 2.

Hypothesis F_increasing : increasing_on F botSpec topSpec.

Lemma mp_while_bracket :
  forall n lo hi fuel,
    botSpec <= lo -> hi <= topSpec -> F lo < 0.5 < F hi -> lo < hi ->
    hi - lo <= 0.001 * 2 ^ n -> (n < fuel)%nat ->
    exists lo' hi',
      mp_while quad fuel beta lo hi true = Return (lo', hi')
      /\ botSpec <= lo' /\ lo' < hi' /\ hi' <= topSpec
      /\ hi' - lo' <= 0.001 /\ F lo' < 0.5 < F hi'.
Proof.
  induction n as [| n IH]; intros lo hi [| fuel] Hlo Hhi HF Hlt Hwidth Hfuel;
    try lia; cbn [mp_while andb]; unfold Rltb.
  - destruct (Rlt_dec 0.001 (hi - lo)) as [Hwide | Hnarrow];
      [simpl in Hwidth; lra |].
    exists lo, hi. repeat split; trivial; lra.
  - destruct (Rlt_dec 0.001 (hi - lo)) as [Hwide | Hnarrow].
    + rewrite mp_body_tighten by apply beta_range.
      destruct (tighten_shrinks F botSpec topSpec lo hi
                                F_increasing Hlo Hhi Hwide)
        as (_ & _ & _ & Hchange).
      destruct (tighten_bracket F botSpec topSpec lo hi
                                F_increasing Hlo Hhi Hwide HF)
        as (Hlo' & Hlt' & Hhi' & Hhalf & HF').
      fold F. rewrite Hchange. cbn [bind].
      apply IH; try lra; [simpl in Hwidth; lra | lia].
    + exists lo, hi. repeat split; trivial; lra.
Qed.

End Bracket.

(** X7: for [0 < beta <= 1] and an upper-tail function that increases
    strictly across the support from below 0.5 to above 0.5, the solver
    returns a value strictly inside the support that is within 0.0005 of
    every point where the upper tail equals 0.5; the unknown-noise
    coefficient is then returned and is positive. *)
Theorem median_marcenko_pastur_accuracy
        (quad : (R -> R) -> R -> R -> R) (beta : R) :
  0 < beta <= 1 ->
  let botSpec := (1 - sqrt beta) ^ 2 in
  let topSpec := (1 + sqrt beta) ^ 2 in
  increasing_on (upper_tail quad beta) botSpec topSpec ->
  upper_tail quad beta botSpec < 0.5 < upper_tail quad beta topSpec ->
  forall fuel, (13 <= fuel)%nat ->
    exists med,
      median_marcenko_pastur quad fuel beta = Return med
      /\ botSpec < med < topSpec
      /\ (forall x, botSpec <= x <= topSpec -> upper_tail quad beta x = 0.5 ->
                    Rabs (med - x) < 0.0005)
      /\ exists omega,
          optimal_svht_coef quad fuel beta false = Return omega /\ 0 < omega.
Proof.
  intros Hbeta botSpec topSpec Hinc Hends fuel Hfuel.
  assert (Hs : 0 < sqrt beta) by (apply sqrt_lt_R0; lra).
  assert (Hbot : 0 <= botSpec) by (unfold botSpec; apply pow2_ge_0).
  assert (Hlt0 : botSpec < topSpec) by (unfold botSpec, topSpec; simpl; lra).
  destruct (mp_while_bracket quad beta Hbeta Hinc 12 botSpec topSpec fuel
                             (Rle_refl _) (Rle_refl _) Hends Hlt0
                             (support_width beta Hbeta) ltac:(lia))
    as (lo & hi & E & Hlo & Hlt & Hhi & Hnarrow & HFlo & HFhi).
  assert (Emed : median_marcenko_pastur quad fuel beta = Return ((hi + lo) / 2)).
  { unfold median_marcenko_pastur. fold botSpec topSpec. rewrite E. reflexivity. }
  unfold botSpec, topSpec in *. clear botSpec topSpec.
  exists ((hi + lo) / 2). split; [exact Emed |]. split; [lra |]. split.
  - intros x [Hx1 Hx2] HFx.
    assert (Hlox : lo < x).
    { destruct (Rlt_dec lo x) as [Hok | Hno]; [exact Hok |]. exfalso.
      destruct (Req_dec x lo) as [-> | Hne]; [lra |].
      pose proof (Hinc x lo Hx1 ltac:(lra) ltac:(lra)). lra. }
    assert (Hxhi : x < hi).
    { destruct (Rlt_dec x hi) as [Hok | Hno]; [exact Hok |]. exfalso.
      destruct (Req_dec x hi) as [-> | Hne]; [lra |].
      pose proof (Hinc hi x ltac:(lra) ltac:(lra) Hx2). lra. }
    apply Rabs_def1; lra.
  - unfold optimal_svht_coef, optimal_svht_coef_sigma_unknown.
    rewrite Emed. cbn [bind]. eexists. split; [reflexivity |].
    apply Rdiv_lt_0_compat.
    + unfold optimal_svht_coef_sigma_known. apply sqrt_lt_R0.
      assert (Hd : 0 < beta + 1 + sqrt (beta ^ 2 + 14 * beta + 1))
        by (pose proof (sqrt_pos (beta ^ 2 + 14 * beta + 1)); lra).
      assert (Hfrac : 0 < (8 * beta) / (beta + 1 + sqrt (beta ^ 2 + 14 * beta + 1)))
        by (apply Rdiv_lt_0_compat; lra).
      lra.
    + apply sqrt_lt_R0. lra.
Qed.

Lemma median_marcenko_pastur_accuracy_witness :
  exists med,
    median_marcenko_pastur (fun _ a b => (b - a) / 4) 13 1 = Return med
    /\ (1 - sqrt 1) ^ 2 < med < (1 + sqrt 1) ^ 2
    /\ (forall x, (1 - sqrt 1) ^ 2 <= x <= (1 + sqrt 1) ^ 2 ->
                  upper_tail (fun _ a b => (b - a) / 4) 1 x = 0.5 ->
                  Rabs (med - x) < 0.0005)
    /\ exists omega,
        optimal_svht_coef (fun _ a b => (b - a) / 4) 13 1 false = Return omega
        /\ 0 < omega.
Proof.
  apply (median_marcenko_pastur_accuracy (fun _ a b => (b - a) / 4) 1).
  - lra.
  - unfold increasing_on, upper_tail. intros p q _ Hpq _. lra.
  - unfold upper_tail. rewrite sqrt_1. lra.
  - lia.
Defined.

(** ** A run of the automatic rank selection

    The series [[10; 0; 1]] with window 2 has the trajectory matrix
    [[[10; 0]; [0; 1]]], whose singular values are 10 and 1: their median is
    5.5, the threshold is near 8.98, and one singular value lies above
    it. *)

Lemma filter_length_permutation {A : Type} (f : A -> bool) (l l' : list A) :
  Permutation l l' -> length (filter f l) = length (filter f l').
Proof.
  induction 1 as [| a l l' _ IH | a b l | l l' l'' _ IH1 _ IH2]; simpl.
  - reflexivity.
  - destruct (f a); simpl; congruence.
  - destruct (f a), (f b); reflexivity.
  - congruence.
Qed.

(** A split of the singular values into those above the threshold and
    those at or below it has [np.sum(S > thresh)] values above. *)
Lemma above_below_count (Sg above below : vector) (t : R) :
  Permutation Sg (above ++ below) ->
  Forall (fun s => t < s) above -> Forall (fun s => s <= t) below ->
  length above = count_above Sg t.
Proof.
  intros Hperm Habove Hbelow. unfold count_above.
  rewrite (filter_length_permutation _ _ _ Hperm), filter_app, length_app.
  clear Hperm.
  assert (Ea : length (filter (fun s => if Rlt_dec t s then true else false)
                              above) = length above).
  { induction Habove as [| a l Ha _ IH]; simpl; [reflexivity |].
    destruct (Rlt_dec t a); [simpl; congruence | contradiction]. }
  assert (Eb : length (filter (fun s => if Rlt_dec t s then true else false)
                              below) = 0%nat).
  { induction Hbelow as [| a l Ha _ IH]; simpl; [reflexivity |].
    destruct (Rlt_dec t a); [lra | exact IH]. }
  rewrite Ea, Eb. lia.
Qed.

Lemma linear_median_bounds (fuel : nat) (med : R) :
  (13 <= fuel)%nat ->
  median_marcenko_pastur (fun _ a b => (b - a) / 4) fuel 1 = Return med ->
  1.9995 < med < 2.0005.
Proof.
  intros Hfuel Hrun.
  set (quad := fun (_ : R -> R) (a b : R) => (b - a) / 4) in *.
  assert (Hbeta : 0 < 1 <= 1) by lra.
  assert (Hinc : increasing_on (upper_tail quad 1)
                               ((1 - sqrt 1) ^ 2) ((1 + sqrt 1) ^ 2)).
  { unfold increasing_on, upper_tail, quad. intros p q _ Hpq _. lra. }
  assert (Hends : upper_tail quad 1 ((1 - sqrt 1) ^ 2) < 0.5
                  < upper_tail quad 1 ((1 + sqrt 1) ^ 2)).
  { unfold upper_tail, quad. rewrite sqrt_1. lra. }
  assert (Hlt0 : (1 - sqrt 1) ^ 2 < (1 + sqrt 1) ^ 2) by (rewrite sqrt_1; lra).
  destruct (mp_while_bracket quad 1 Hbeta Hinc 12 _ _ fuel
                             (Rle_refl _) (Rle_refl _) Hends Hlt0
                             (support_width 1 Hbeta) ltac:(lia))
    as (lo & hi & E & _ & _ & _ & Hnarrow & HFlo & HFhi).
  unfold median_marcenko_pastur in Hrun. rewrite E in Hrun.
  cbn [bind] in Hrun. injection Hrun as <-.
  unfold upper_tail, quad in HFlo, HFhi. rewrite sqrt_1 in HFlo, HFhi. lra.
Qed.

Lemma threshold_bounds (MPmedian : R) :
  1.9995 < MPmedian < 2.0005 ->
  8.9 < optimal_svht_coef_sigma_known 1 / sqrt MPmedian * 5.5 < 9.
Proof.
  intros [Hlo Hhi].
  pose proof svht_known_at_one_bounds as [Hw1 Hw2].
  assert (Hs1 : 1.414 < sqrt MPmedian).
  { rewrite <- (sqrt_square 1.414) by lra. apply sqrt_lt_1; lra. }
  assert (Hs2 : sqrt MPmedian < 1.4145).
  { rewrite <- (sqrt_square 1.4145) by lra. apply sqrt_lt_1; lra. }
  set (sq := sqrt MPmedian) in *. set (om := optimal_svht_coef_sigma_known 1) in *.
  assert (Hq : om / sq * 5.5 * sq = om * 5.5) by (field; lra).
  split.
  - apply Rmult_lt_reg_r with sq; [lra |]. rewrite Hq. nra.
  - apply Rmult_lt_reg_r with sq; [lra |]. rewrite Hq. nra.
Qed.

Lemma automatic_rank_selection_witness :
  exists x_denoised : list npfloat,
    denoise_svd (fun _ a b => (b - a) / 4)
                (fun _ => ([[1; 0]; [0; 1]], [10; 1], [[1; 0]; [0; 1]]))
                13 [10; 0; 1] 2 None
    = Return (x_denoised, 1%Z)
    /\ length x_denoised = 3%nat.
Proof.
  pose proof (automatic_rank_selection
                (fun _ a b => (b - a) / 4)
                (fun _ => ([[1; 0]; [0; 1]], [10; 1], [[1; 0]; [0; 1]]))
                [10; 0; 1] 2
                [[10; 0]; [0; 1]] [[1; 0]; [0; 1]] [[1; 0]; [0; 1]] [10; 1]
                ltac:(simpl; lia) eq_refl eq_refl eq_refl eq_refl eq_refl)
    as Hrun.
  cbv zeta in Hrun.
  cbn [nrows ncols length hd Nat.min Nat.max] in Hrun.
  replace (INR 2 / INR 2) with 1 in Hrun by (simpl; lra).
  assert (Hinc : increasing_on (upper_tail (fun _ a b => (b - a) / 4) 1)
                               ((1 - sqrt 1) ^ 2) ((1 + sqrt 1) ^ 2)).
  { unfold increasing_on, upper_tail. intros p q _ Hpq _. lra. }
  destruct (Hrun Hinc 13%nat (le_n 13))
    as (MPmedian & sorted & above & below & x_denoised & EMP & _ & Hperm
        & Hsorted & Hsplit & Habove & Hbelow & Erun & Hlen & _).
  apply (linear_median_bounds 13 MPmedian (le_n 13)) in EMP.
  assert (Esorted : sorted = [1; 10]).
  { destruct (Permutation_length_2_inv Hperm) as [-> | ->]; [| reflexivity].
    inversion Hsorted as [| a l _ Hhd]. inversion Hhd. lra. }
  subst sorted.
  assert (Emed : (if Nat.even (length [1; 10])
                  then (nth (length [1; 10] / 2 - 1) [1; 10] 0
                        + nth (length [1; 10] / 2) [1; 10] 0) / 2
                  else nth (length [1; 10] / 2) [1; 10] 0) = 5.5)
    by (simpl; lra).
  rewrite Emed in Habove, Hbelow.
  pose proof (threshold_bounds MPmedian EMP) as Hthresh.
  rewrite (above_below_count _ _ _ _ Hsplit Habove Hbelow) in Erun.
  unfold count_above in Erun. cbn [filter] in Erun.
  destruct (Rlt_dec (optimal_svht_coef_sigma_known 1 / sqrt MPmedian * 5.5) 10)
    as [_ | Hbad] in Erun; [| lra].
  destruct (Rlt_dec (optimal_svht_coef_sigma_known 1 / sqrt MPmedian * 5.5) 1)
    as [Hbad | _] in Erun; [lra |].
  exists x_denoised. split; [exact Erun | exact Hlen].
Defined.

Lemma svht_radicand_sqrt (beta : R) :
  0 < beta ->
  let s := sqrt (beta ^ 2 + 14 * beta + 1) in
  s * s = beta ^ 2 + 14 * beta + 1 /\ 1 < s.
Proof.
  intros Hbeta s. split.
  - apply sqrt_sqrt. nra.
  - unfold s. rewrite <- sqrt_1 at 1. apply sqrt_lt_1; nra.
Qed.

Lemma svht_known_increasing (b1 b2 : R) :
  0 < b1 -> b1 <= b2 ->
  optimal_svht_coef_sigma_known b1 <= optimal_svht_coef_sigma_known b2.
Proof.
  intros Hb1 Hb12. unfold optimal_svht_coef_sigma_known.
  destruct (svht_radicand_sqrt b1 Hb1) as [Hsq1 Hs1].
  destruct (svht_radicand_sqrt b2 ltac:(lra)) as [Hsq2 Hs2].
  set (s1 := sqrt (b1 ^ 2 + 14 * b1 + 1)) in *.
  set (s2 := sqrt (b2 ^ 2 + 14 * b2 + 1)) in *.
  assert (Hcross : b1 * s2 <= b2 * s1).
  { apply Rsqr_incr_0_var; [| nra]. unfold Rsqr.
    replace (b1 * s2 * (b1 * s2)) with (b1 * b1 * (s2 * s2)) by ring.
    replace (b2 * s1 * (b2 * s1)) with (b2 * b2 * (s1 * s1)) by ring.
    rewrite Hsq1, Hsq2.
    assert (Hp : 0 <= b1 * b2 * (b2 - b1)) by (apply Rmult_le_pos; nra).
    nra. }
  assert (Hfrac : (8 * b1) / (b1 + 1 + s1) <= (8 * b2) / (b2 + 1 + s2)).
  { apply Rmult_le_reg_r with ((b1 + 1 + s1) * (b2 + 1 + s2)); [nra |].
    replace ((8 * b1) / (b1 + 1 + s1) * ((b1 + 1 + s1) * (b2 + 1 + s2)))
      with (8 * b1 * (b2 + 1 + s2)) by (field; lra).
    replace ((8 * b2) / (b2 + 1 + s2) * ((b1 + 1 + s1) * (b2 + 1 + s2)))
      with (8 * b2 * (b1 + 1 + s1)) by (field; lra).
    nra. }
  apply sqrt_le_1_alt. lra.
Qed.

(** X8: the known-noise coefficient grows with [beta]; on [0 < beta <= 1]
    it stays strictly above [sqrt 2] and at most [4 / sqrt 3], its value
    at 1. *)
Theorem svht_known_monotone_bounded (b1 b2 : R) :
  0 < b1 -> b1 <= b2 -> b2 <= 1 ->
  sqrt 2 < optimal_svht_coef_sigma_known b1
  /\ optimal_svht_coef_sigma_known b1 <= optimal_svht_coef_sigma_known b2
  /\ optimal_svht_coef_sigma_known b2 <= 4 / sqrt 3.
Proof.
  intros Hb1 Hb12 Hb2. split; [| split].
  - unfold optimal_svht_coef_sigma_known.
    destruct (svht_radicand_sqrt b1 Hb1) as [_ Hs1].
    apply sqrt_lt_1_alt. split; [lra |].
    assert (Hfrac : 0 < (8 * b1) / (b1 + 1 + sqrt (b1 ^ 2 + 14 * b1 + 1)))
      by (apply Rdiv_lt_0_compat; lra).
    lra.
  - apply svht_known_increasing; assumption.
  - replace (4 / sqrt 3) with (optimal_svht_coef_sigma_known 1).
    + apply svht_known_increasing; lra.
    + rewrite svht_known_at_one, sqrt_div_alt by lra.
      rewrite sqrt_16. reflexivity.
Qed.

Lemma svht_known_monotone_bounded_witness :
  sqrt 2 < optimal_svht_coef_sigma_known (1 / 4)
  /\ optimal_svht_coef_sigma_known (1 / 4)
     <= optimal_svht_coef_sigma_known (1 / 2)
  /\ optimal_svht_coef_sigma_known (1 / 2) <= 4 / sqrt 3.
Proof.
  apply (svht_known_monotone_bounded (1 / 4) (1 / 2)); lra.
Defined.

(** * The post-processing and the column pipeline of [main] *)

Lemma Zfloor_bounds (x : R) : IZR (Zfloor x) <= x < IZR (Zfloor x) + 1.
Proof.
  unfold Zfloor. destruct (archimed x) as [Hup Hlow].
  rewrite minus_IZR. lra.
Qed.

Lemma np_round_nearest (x : R) :
  exists z : Z, np_round x = IZR z /\ -0.5 <= IZR z - x <= 0.5.
Proof.
  unfold np_round. pose proof (Zfloor_bounds x) as [Hlo Hhi].
  set (f := Zfloor x) in *.
  assert (Hnext : IZR (f + 1) = IZR f + 1) by (rewrite plus_IZR; lra).
  destruct (Rlt_dec (x - IZR f) 0.5) as [Hd | Hd].
  - exists f. split; [reflexivity | lra].
  - destruct (Rlt_dec 0.5 (x - IZR f)) as [Hu | Hu].
    + exists (f + 1)%Z. split; [reflexivity | lra].
    + destruct (Z.even f).
      * exists f. split; [reflexivity | lra].
      * exists (f + 1)%Z. split; [reflexivity | lra].
Qed.

Lemma clip_negative_nonneg (a : vector) : Forall (fun v => 0 <= v) (clip_negative a).
Proof.
  unfold clip_negative. apply Forall_forall. intros v Hv.
  apply in_map_iff in Hv as (u & <- & _).
  destruct (Rlt_dec u 0); lra.
Qed.

Lemma clip_negative_length (a : vector) : length (clip_negative a) = length a.
Proof. apply length_map. Qed.

Lemma clip_negative_fixed (a : vector) :
  Forall (fun v => 0 <= v) a -> clip_negative a = a.
Proof.
  unfold clip_negative. induction 1 as [| v a Hv _ IH]; [reflexivity |].
  cbn [map]. rewrite IH. destruct (Rlt_dec v 0); [lra | reflexivity].
Qed.

Lemma Forall2_map_right {A B : Type} (P : A -> B -> Prop) (f : A -> B)
      (l : list A) :
  (forall x, P x (f x)) -> Forall2 P l (map f l).
Proof.
  intros Hf. induction l as [| x l IH]; constructor; [apply Hf | exact IH].
Qed.

(** X9: after lines 299-302 every entry of the table is non-negative and
    every column keeps its length; the cases are non-negative integers,
    within 0.5 of the smoothed value wherever that value is not negative;
    a column without negative entries (as [epiweek]) is left as it is. *)
Theorem main_postprocess_properties
        (epiweek cases : vector) (rest : list vector) :
  exists out_epiweek out_cases out_rest,
    main_postprocess epiweek (cases :: rest)
    = Return (out_epiweek :: out_cases :: out_rest)
    /\ Forall2 (fun col out => length out = length col
                               /\ Forall (fun v => 0 <= v) out)
               (epiweek :: cases :: rest)
               (out_epiweek :: out_cases :: out_rest)
    /\ Forall2 (fun x v => exists z : Z,
                    (0 <= z)%Z /\ v = IZR z
                    /\ (0 <= x -> Rabs (v - x) <= 0.5))
               cases out_cases
    /\ (Forall (fun v => 0 <= v) epiweek -> out_epiweek = epiweek).
Proof.
  exists (clip_negative epiweek), (clip_negative (map np_round cases)),
    (map clip_negative rest).
  split; [reflexivity |]. split; [| split].
  - constructor; [split; [apply clip_negative_length | apply clip_negative_nonneg] |].
    constructor.
    + split; [| apply clip_negative_nonneg].
      rewrite clip_negative_length. apply length_map.
    + apply Forall2_map_right. intros col.
      split; [apply clip_negative_length | apply clip_negative_nonneg].
  - unfold clip_negative. rewrite map_map.
    apply Forall2_map_right. intros x.
    destruct (np_round_nearest x) as (z & -> & Hz).
    destruct (Rlt_dec (IZR z) 0) as [Hneg | Hpos].
    + exists 0%Z. split; [lia |]. split; [reflexivity |].
      intros Hx. apply Rabs_le. lra.
    + exists z. split; [apply le_IZR; lra |]. split; [reflexivity |].
      intros _. apply Rabs_le. lra.
  - apply clip_negative_fixed.
Qed.

Lemma main_postprocess_properties_witness :
  exists out_epiweek out_cases out_rest,
    main_postprocess [202001; 202002] ([1.4; -0.2] :: [[0.5; -3]])
    = Return (out_epiweek :: out_cases :: out_rest)
    /\ Forall2 (fun col out => length out = length col
                               /\ Forall (fun v => 0 <= v) out)
               ([202001; 202002] :: [1.4; -0.2] :: [[0.5; -3]])
               (out_epiweek :: out_cases :: out_rest)
    /\ Forall2 (fun x v => exists z : Z,
                    (0 <= z)%Z /\ v = IZR z
                    /\ (0 <= x -> Rabs (v - x) <= 0.5))
               [1.4; -0.2] out_cases
    /\ (Forall (fun v => 0 <= v) [202001; 202002]
        -> out_epiweek = [202001; 202002]).
Proof.
  exact (main_postprocess_properties [202001; 202002] [1.4; -0.2] [[0.5; -3]]).
Defined.

Lemma map_outcome_all {A B : Type} (f : A -> outcome B) (Q : A -> B -> Prop)
      (xs : list A) :
  (forall x, In x xs -> exists y, f x = Return y /\ Q x y) ->
  exists ys, map_outcome f xs = Return ys /\ Forall2 Q xs ys.
Proof.
  induction xs as [| x xs IH]; intros Hall.
  - exists []. split; [reflexivity | constructor].
  - destruct (Hall x (or_introl eq_refl)) as (y & Ey & Qy).
    destruct (IH (fun x' Hx' => Hall x' (or_intror Hx'))) as (ys & Eys & Qys).
    exists (y :: ys). split; [| constructor; assumption].
    simpl. rewrite Ey. simpl. rewrite Eys. reflexivity.
Qed.

Lemma Forall2_preimage {A B : Type} (Q : A -> B -> Prop)
      (xs : list A) (ys : list B) (y : B) :
  Forall2 Q xs ys -> In y ys -> exists x, In x xs /\ Q x y.
Proof.
  induction 1 as [| x0 y0 xs ys Hq _ IH]; intros Hin; [contradiction |].
  destruct Hin as [<- | Hin].
  - exists x0. split; [left; reflexivity | exact Hq].
  - destruct (IH Hin) as (x & Hx & Hqx). exists x. split; [right |]; assumption.
Qed.

Section MainRun.

Variable quad : (R -> R) -> R -> R -> R.
Variable svd : matrix -> matrix * vector * matrix.
Variable savgol_filter : vector -> nat -> nat -> outcome vector.
Variable CubicSpline : vector -> vector -> outcome (R -> R).

(** What the run relies on: the shapes of the factors of the decomposition,
    an upper tail that increases strictly on the support, a filter that
    keeps the length of a series no shorter than its frame, and a spline
    that can be built on two points or more. *)
Hypothesis svd_shapes :
  forall H U Sg Vt, svd H = (U, Sg, Vt) ->
    length Sg = Nat.min (nrows H) (ncols H)
    /\ nrows U = nrows H /\ ncols Vt = ncols H.
Hypothesis quad_increasing :
  forall beta, 0 < beta <= 1 ->
    increasing_on (upper_tail quad beta)
                  ((1 - sqrt beta) ^ 2) ((1 + sqrt beta) ^ 2).
Hypothesis savgol_keeps_length :
  forall x, (FrameLen <= length x)%nat ->
    exists filtered,
      savgol_filter x FrameLen Order = Return filtered
      /\ length filtered = length x.
Hypothesis spline_is_built :
  forall y, (2 <= length y)%nat ->
    exists cs, CubicSpline (np_arange 1 (INR (length y) + 1) 1) y = Return cs.

Lemma automatic_denoise_returns (fuel : nat) (x : vector) (w : Z) :
  (1 <= w <= Z.of_nat (length x))%Z -> (13 <= fuel)%nat ->
  exists x_denoised rank,
    denoise_svd quad svd fuel x w None = Return (map Num x_denoised, rank)
    /\ length x_denoised = length x.
Proof.
  intros Hw Hfuel.
  pose proof (hankel_embedding_ok x w ltac:(lia)) as HE.
  destruct (hankel_shape x (Z.to_nat w)) as (Hm & Hn & _); [lia |].
  set (H := map _ _) in *.
  destruct (svd H) as [[U Sg] Vt] eqn:Hsvd.
  destruct (svd_shapes H U Sg Vt Hsvd) as (Hlen & HU & HVt).
  set (beta := INR (Nat.min (nrows H) (ncols H))
               / INR (Nat.max (nrows H) (ncols H))).
  assert (Hbeta : 0 < beta <= 1)
    by (apply aspect_ratio_range; rewrite ?Hm, ?Hn; lia).
  destruct (mp_while_from_support quad beta Hbeta (quad_increasing beta Hbeta)
                                  fuel Hfuel) as (lo & hi & Eloop & _).
  unfold denoise_svd. rewrite HE. cbn [bind]. rewrite Hsvd.
  unfold select_rank, optimal_svht_coef, optimal_svht_coef_sigma_unknown,
    median_marcenko_pastur.
  fold beta. rewrite Eloop. cbn [bind].
  match goal with
  | |- context [np_count_above Sg ?t] =>
      pose proof (np_count_above_le Sg t) as Hcount
  end.
  unfold truncate.
  match goal with
  | |- context [(?a <? 0)%Z] => destruct (Z.ltb_spec a 0) as [Hneg | _]; [lia |]
  end.
  cbn [bind].
  match goal with
  | |- context [matmul (matmul U ?M) Vt] =>
      destruct (reconstruction_numbers x w H U Vt M Hw HE HU HVt)
        as (xd & E & Lxd)
  end.
  rewrite E. cbn [bind]. eexists. eexists. split; [reflexivity | exact Lxd].
Qed.

(** X10: when every column has [N >= 52] entries, [main] carries each of
    them through denoising, filtering, the spline pass and the
    post-processing, and the table comes back with the same columns of [N]
    non-negative entries; when the columns are shorter than the window 52,
    the first of them stops the run with the window error. *)
Theorem main_process_outcome
        (fuel : nat) (epiweek column : vector) (others : list vector) :
  (13 <= fuel)%nat ->
  (forall c, In c (column :: others) -> length c = length epiweek) ->
  ((52 <= length epiweek)%nat ->
   exists table,
     main_process quad svd savgol_filter CubicSpline fuel epiweek
                  (column :: others) = Return table
     /\ Forall2 (fun col out => length out = length col
                                /\ Forall (fun v => 0 <= v) out)
                (epiweek :: column :: others) table)
  /\ ((length epiweek < 52)%nat ->
      main_process quad svd savgol_filter CubicSpline fuel epiweek
                   (column :: others) = Raise InvalidWindow).
Proof.
  intros Hfuel Hlens. split.
  - intros HN.
    destruct (map_outcome_all
                (fun col =>
                   '(denoised, _) <- denoise_svd quad svd fuel col Window None ;;
                   match np_reals denoised with
                   | Some denoised =>
                       filtered <- savgol_filter denoised FrameLen Order ;;
                       assign_column (length col) filtered
                   | None => Raise NotANumber
                   end)
                (fun col out => length out = length col)
                (column :: others))
      as (filtered & Efilt & Hfilt).
    { intros col Hcol. pose proof (Hlens col Hcol) as Hlen.
      destruct (automatic_denoise_returns fuel col Window)
        as (xd & rk & Eden & Lxd); [unfold Window; lia | exact Hfuel |].
      destruct (savgol_keeps_length xd) as (flt & Eflt & Lflt);
        [unfold FrameLen; lia |].
      exists flt. rewrite Eden. cbn [bind]. rewrite np_reals_map_Num, Eflt.
      cbn [bind].
      split; [apply assign_column_same |]; congruence. }
    destruct (map_outcome_all (spline_column CubicSpline)
                              (fun col out => length out = length col)
                              filtered)
      as (splined & Espl & Hspl).
    { intros col Hcol.
      assert (Hlen : length col = length epiweek).
      { destruct (Forall2_preimage _ _ _ col Hfilt Hcol) as (c0 & Hc0 & Hl).
        rewrite Hl. apply Hlens. exact Hc0. }
      destruct (spline_is_built col) as (cs & Ecs); [lia |].
      exists (map cs (np_arange 1 (INR (length col) + 1) 1)).
      split; [apply spline_column_knots; exact Ecs |].
      rewrite np_arange_unit, !length_map, length_seq. reflexivity. }
    assert (Hboth : Forall2 (fun col out => length out = length col)
                            (column :: others) splined).
    { clear - Hfilt Hspl. revert splined Hspl.
      induction Hfilt as [| c f cs fs Hcf _ IH]; intros splined Hspl;
        inversion Hspl; subst; constructor; [congruence | apply IH; assumption]. }
    inversion Hboth as [| c out cs outs Hc Hrest]; subst.
    unfold main_process, main_filter_loop, main_spline_loop.
    rewrite Efilt. cbn [bind]. rewrite Espl. cbn [bind main_postprocess].
    eexists. split; [reflexivity |].
    cbn [map]. constructor;
      [split; [apply clip_negative_length | apply clip_negative_nonneg] |].
    constructor.
    + split; [| apply clip_negative_nonneg].
      rewrite clip_negative_length, length_map. exact Hc.
    + clear - Hrest. induction Hrest as [| c o cs os Hco _ IH]; cbn [map];
        constructor; [| exact IH].
      split; [rewrite clip_negative_length; exact Hco
             | apply clip_negative_nonneg].
  - intros HN.
    pose proof (Hlens column (or_introl eq_refl)) as Hlen.
    unfold main_process, main_filter_loop. cbn [map_outcome].
    unfold denoise_svd, hankel_embedding, Window.
    destruct (Z.ltb_spec (Z.of_nat (length column)) 52) as [_ | Hbad]; [| lia].
    reflexivity.
Qed.

End MainRun.

Lemma main_process_outcome_witness :
  exists table,
    main_process (fun _ a b => (b - a) / 4)
                 (fun H => (H, repeat 0 (Nat.min (nrows H) (ncols H)), H))
                 (fun x _ _ => Return x) (fun _ _ => Return (fun t => t))
                 13 (repeat 202001 52) [repeat 1 52] = Return table
    /\ Forall2 (fun col out => length out = length col
                               /\ Forall (fun v => 0 <= v) out)
               [repeat 202001 52; repeat 1 52] table.
Proof.
  apply (proj1 (main_process_outcome
                  (fun _ a b => (b - a) / 4)
                  (fun H => (H, repeat 0 (Nat.min (nrows H) (ncols H)), H))
                  (fun x _ _ => Return x) (fun _ _ => Return (fun t => t))
                  ltac:(intros H U Sg Vt E; injection E as <- <- <-;
                        rewrite repeat_length; repeat split)
                  ltac:(unfold increasing_on, upper_tail;
                        intros beta _ p q _ Hpq _; lra)
                  ltac:(intros x _; exists x; split; reflexivity)
                  ltac:(intros y _; eexists; reflexivity)
                  13%nat (repeat 202001 52) (repeat 1 52) []
                  ltac:(lia)
                  ltac:(intros c [<- | []]; rewrite !repeat_length;
                        reflexivity))).
  rewrite repeat_length. lia.
Defined.

(** * Epidemiological weeks *)

Lemma py_range_spec (a b v : Z) :
  In v (Aggregation.py_range a b) <-> (a <= v < b)%Z.
Proof.
  unfold Aggregation.py_range. rewrite in_map_iff. split.
  - intros (i & <- & Hi). apply in_seq in Hi. lia.
  - intros Hv. exists (Z.to_nat (v - a)). split; [lia |].
    apply in_seq. lia.
Qed.

(** X11: the weeks that [main] keeps are exactly the codes [year * 100 +
    week] with [2010 <= year <= 2023] and [1 <= week <= 52] (a week 53 is
    dropped); such a code is decoded into its year and week, and its date is
    the first of January of that year plus [7 * (week - 1)] days, at most
    357. *)
Theorem valid_epiweeks_decode (epi : Z) :
  (In epi Aggregation.valid_epiweeks
   <-> (2010 <= epi / 100 <= 2023)%Z /\ (1 <= epi mod 100 <= 52)%Z)
  /\ (In epi Aggregation.valid_epiweeks ->
      Aggregation.epiweek_to_date epi
      = Some ((epi / 100)%Z, (7 * (epi mod 100 - 1))%Z)
      /\ (0 <= 7 * (epi mod 100 - 1) <= 357)%Z
      /\ epi = ((epi / 100) * 100 + epi mod 100)%Z).
Proof.
  assert (Hchar : In epi Aggregation.valid_epiweeks
                  <-> (2010 <= epi / 100 <= 2023)%Z
                      /\ (1 <= epi mod 100 <= 52)%Z).
  { unfold Aggregation.valid_epiweeks. rewrite in_flat_map. split.
    - intros (year & Hyear & Hweek).
      apply in_map_iff in Hweek as (week & <- & Hweek).
      apply py_range_spec in Hyear, Hweek.
      Z.div_mod_to_equations. lia.
    - intros [Hyear Hweek]. exists (epi / 100)%Z.
      split; [apply py_range_spec; lia |].
      apply in_map_iff. exists (epi mod 100)%Z.
      split; [| apply py_range_spec; lia].
      Z.div_mod_to_equations. lia. }
  split; [exact Hchar |].
  intros Hin. apply Hchar in Hin as [Hyear Hweek].
  unfold Aggregation.epiweek_to_date.
  destruct (Z.ltb_spec (epi / 100) 1); [lia |].
  destruct (Z.ltb_spec 9999 (epi / 100)); [lia |].
  destruct (Z.eqb_spec (epi / 100) 1); [lia |].
  destruct (Z.eqb_spec (epi / 100) 9999); [lia |].
  cbn [orb andb]. split; [reflexivity |]. split; [lia |].
  Z.div_mod_to_equations. lia.
Qed.

Lemma valid_epiweeks_decode_witness :
  Aggregation.epiweek_to_date 202015
  = Some ((202015 / 100)%Z, (7 * (202015 mod 100 - 1))%Z)
  /\ (0 <= 7 * (202015 mod 100 - 1) <= 357)%Z
  /\ 202015%Z = ((202015 / 100) * 100 + 202015 mod 100)%Z.
Proof.
  apply (proj2 (valid_epiweeks_decode 202015)).
  apply (proj1 (valid_epiweeks_decode 202015)).
  vm_compute. repeat split; discriminate.
Defined.

(** * [data_cleaning] *)

Module CleaningFacts.

Import Aggregation.

Lemma apply_forbidden_values (fv : list (list xfloat)) :
  well_formed fv ->
  forall values,
    apply_forbidden fv values = Ok (map (forbid_value fv) values).
Proof.
  induction 1 as [| rng fv Hrng _ IH]; intros values.
  - simpl. rewrite map_id. reflexivity.
  - destruct rng as [| lower [| upper [| extra rng]]]; try discriminate Hrng.
    cbn [apply_forbidden forbid_value]. rewrite IH, map_map. reflexivity.
Qed.

Lemma apply_forbidden_well_formed (fv : list (list xfloat)) :
  forall values values',
    apply_forbidden fv values = Ok values' -> well_formed fv.
Proof.
  induction fv as [| rng fv IH]; intros values values' Hrun; [constructor |].
  destruct rng as [| lower [| upper [| extra rng]]]; try discriminate Hrun.
  constructor; [reflexivity |]. exact (IH _ _ Hrun).
Qed.

Lemma apply_forbidden_malformed (fv : list (list xfloat)) :
  ~ well_formed fv -> forall values, apply_forbidden fv values = ValueError.
Proof.
  intros Hbad values.
  destruct (apply_forbidden fv values) as [values' |] eqn:E; [| reflexivity].
  exfalso. apply Hbad. exact (apply_forbidden_well_formed _ _ _ E).
Qed.

Lemma clean_numeric_values (positive : bool) (fv : list (list xfloat)) :
  well_formed fv ->
  forall values,
    clean_numeric positive fv values = Ok (map (clean_value positive fv) values).
Proof.
  intros Hwf values. unfold clean_numeric.
  rewrite (apply_forbidden_values fv Hwf). unfold clean_value.
  destruct positive; rewrite !map_map; reflexivity.
Qed.

Lemma forbid_value_choice (fv : list (list xfloat)) (v : xfloat) :
  forbid_value fv v = v \/ forbid_value fv v = Finite 0.
Proof.
  revert v. induction fv as [| rng fv IH]; intros v; [left; reflexivity |].
  destruct rng as [| lower [| upper [| extra rng]]]; try (left; reflexivity).
  cbn [forbid_value]. unfold zero_in_range.
  destruct (xle lower v && xle v upper).
  - right. destruct (IH (Finite 0)) as [E | E]; exact E.
  - apply IH.
Qed.

Lemma forbid_value_outside (fv : list (list xfloat)) (v : xfloat) :
  well_formed fv ->
  forall lower upper, In [lower; upper] fv ->
    forbid_value fv v = Finite 0
    \/ xle lower (forbid_value fv v) && xle (forbid_value fv v) upper = false.
Proof.
  intros Hwf. revert v. induction Hwf as [| rng fv Hrng _ IH];
    intros v lower upper Hin; [contradiction |].
  destruct rng as [| lo [| up [| extra rng]]]; try discriminate Hrng.
  cbn [forbid_value]. destruct Hin as [Hhead | Hin].
  - injection Hhead as -> ->. unfold zero_in_range.
    destruct (xle lower v && xle v upper) eqn:Ein.
    + left. destruct (forbid_value_choice fv (Finite 0)) as [E | E]; exact E.
    + destruct (forbid_value_choice fv v) as [E | E]; [| left; exact E].
      right. rewrite E. exact Ein.
  - apply IH. exact Hin.
Qed.

Lemma forbid_value_fixed (fv : list (list xfloat)) (v : xfloat) :
  (forall lower upper, In [lower; upper] fv ->
     xle lower v && xle v upper = false) ->
  forbid_value fv v = v.
Proof.
  induction fv as [| rng fv IH]; intros Hout; [reflexivity |].
  destruct rng as [| lower [| upper [| extra rng]]]; try reflexivity.
  cbn [forbid_value]. unfold zero_in_range.
  rewrite (Hout lower upper (or_introl eq_refl)).
  apply IH. intros lo up Hin. apply Hout. right. exact Hin.
Qed.

Lemma xlt_zero_zero : xlt (Finite 0) (Finite 0) = false.
Proof. unfold xlt, Rltb. destruct (Rlt_dec 0 0); [lra | reflexivity]. Qed.

Lemma clean_value_cleaned (positive : bool) (fv : list (list xfloat))
      (v : xfloat) :
  well_formed fv -> cleaned_value positive fv v (clean_value positive fv v).
Proof.
  intros Hwf. unfold cleaned_value, clean_value.
  set (u := if positive then zero_negative (fillna v) else fillna v).
  assert (Hu : u <> NaN /\ (u = v \/ u = Finite 0)
               /\ (positive = true -> xlt u (Finite 0) = false)).
  { unfold u, zero_negative. destruct positive, v as [r | | |]; cbn [fillna];
      try (destruct (xlt _ (Finite 0)) eqn:E);
      repeat split; try discriminate; auto using xlt_zero_zero. }
  destruct Hu as (Hnan & Hsame & Hneg).
  destruct (forbid_value_choice fv u) as [E | E]; rewrite E.
  - repeat split; trivial.
    intros lower upper Hin.
    pose proof (forbid_value_outside fv u Hwf lower upper Hin) as Hout.
    rewrite E in Hout. exact Hout.
  - repeat split; try discriminate; auto using xlt_zero_zero.
Qed.

Lemma xfloat_zero_dec (v : xfloat) : v = Finite 0 \/ v <> Finite 0.
Proof.
  destruct v as [r | | |]; try (right; discriminate).
  destruct (Req_dec r 0) as [-> | Hne]; [left; reflexivity |].
  right. intros E. injection E as E. contradiction.
Qed.

Lemma clean_value_idempotent (positive : bool) (fv : list (list xfloat))
      (v : xfloat) :
  well_formed fv ->
  clean_value positive fv (clean_value positive fv v)
  = clean_value positive fv v.
Proof.
  intros Hwf.
  destruct (clean_value_cleaned positive fv v Hwf) as (Hnan & _ & Hneg & Hout).
  set (c := clean_value positive fv v) in *.
  assert (Hfill : fillna c = c) by (destruct c; trivial; contradiction).
  destruct (xfloat_zero_dec c) as [Hz | Hnz].
  - rewrite Hz. unfold clean_value. cbn [fillna]. unfold zero_negative.
    rewrite xlt_zero_zero.
    destruct positive;
      destruct (forbid_value_choice fv (Finite 0)) as [E | E]; exact E.
  - unfold clean_value. rewrite Hfill.
    assert (Hkeep : (if positive then zero_negative c else c) = c).
    { destruct positive; [| reflexivity].
      unfold zero_negative. rewrite (Hneg eq_refl). reflexivity. }
    rewrite Hkeep. apply forbid_value_fixed.
    intros lower upper Hin. destruct (Hout lower upper Hin) as [Hz | Hr];
      [contradiction | exact Hr].
Qed.

Lemma clean_columns_map (pf : list String.string) (fv : list (list xfloat))
      (df : dataframe) :
  well_formed fv -> clean_columns pf fv df = Ok (map (clean_column pf fv) df).
Proof.
  intros Hwf. induction df as [| [col [values | values]] df IH];
    cbn [clean_columns map]; [reflexivity | |].
  - rewrite (clean_numeric_values _ fv Hwf), IH. reflexivity.
  - rewrite IH. reflexivity.
Qed.

Lemma clean_columns_text_only (pf : list String.string)
      (fv : list (list xfloat)) (df : dataframe) :
  existsb is_numeric df = false -> clean_columns pf fv df = Ok df.
Proof.
  induction df as [| [col [values | values]] df IH]; cbn [existsb clean_columns];
    [reflexivity | discriminate |].
  unfold is_numeric at 1. cbn [snd orb]. intros Hrest.
  rewrite (IH Hrest). reflexivity.
Qed.

Lemma clean_columns_malformed (pf : list String.string)
      (fv : list (list xfloat)) (df : dataframe) :
  ~ well_formed fv -> existsb is_numeric df = true ->
  clean_columns pf fv df = ValueError.
Proof.
  intros Hbad. induction df as [| [col [values | values]] df IH];
    cbn [existsb clean_columns]; [discriminate | |].
  - intros _. unfold clean_numeric.
    rewrite (apply_forbidden_malformed fv Hbad). reflexivity.
  - unfold is_numeric at 1. cbn [snd orb]. intros Hrest.
    rewrite (IH Hrest). reflexivity.
Qed.

(** X12: with well-formed forbidden ranges [data_cleaning] returns a frame
    with the same columns in the same order; text columns are untouched,
    and in a numeric column every value comes back as itself or as zero,
    is a number (no [nan]), is not negative in a positive field, and is
    zero or outside every forbidden range. *)
Theorem data_cleaning_guarantees
        (raw_data : dataframe) (positive_fields : option (list String.string))
        (forbidden_values : option (list (list xfloat))) :
  well_formed (default_list forbidden_values) ->
  exists df,
    data_cleaning raw_data positive_fields forbidden_values = Ok df
    /\ Forall2 (cleaned_column (default_list positive_fields)
                               (default_list forbidden_values))
               raw_data df.
Proof.
  intros Hwf. unfold data_cleaning.
  rewrite (clean_columns_map _ _ raw_data Hwf).
  eexists. split; [reflexivity |].
  induction raw_data as [| [col [values | values]] raw IH]; cbn [map];
    constructor; trivial.
  - unfold cleaned_column, clean_column. cbn [fst snd]. split; [reflexivity |].
    clear IH. induction values as [| v values IHv]; cbn [map]; constructor;
      [apply clean_value_cleaned; exact Hwf | exact IHv].
  - unfold cleaned_column, clean_column. cbn [fst snd]. split; reflexivity.
Qed.

Lemma data_cleaning_guarantees_witness :
  exists df,
    data_cleaning [(casos, Numeric [Finite (-2); NaN; Finite 7])]
                  (Some positive_fields1) (Some [[Finite 5; Finite 9]])
    = Ok df
    /\ Forall2 (cleaned_column positive_fields1 [[Finite 5; Finite 9]])
               [(casos, Numeric [Finite (-2); NaN; Finite 7])] df.
Proof.
  apply (data_cleaning_guarantees
           [(casos, Numeric [Finite (-2); NaN; Finite 7])]
           (Some positive_fields1) (Some [[Finite 5; Finite 9]])).
  repeat constructor.
Defined.

(** X13: infinite values are not replaced.  With no forbidden range (as
    [main] calls it) a [+inf] stays in place in every numeric column, and a
    [-inf] stays in place unless the column is a positive field, where it
    becomes zero. *)
Theorem data_cleaning_keeps_infinities
        (raw_data : dataframe) (positive_fields : option (list String.string))
        (i k : nat) (col : String.string) (values : list xfloat) (v : xfloat) :
  nth_error raw_data i = Some (col, Numeric values) ->
  nth_error values k = Some v ->
  v = PosInf \/ v = NegInf ->
  exists df values',
    data_cleaning raw_data positive_fields None = Ok df
    /\ nth_error df i = Some (col, Numeric values')
    /\ nth_error values' k
       = Some (if existsb (String.eqb col) (default_list positive_fields)
               then match v with NegInf => Finite 0 | _ => v end
               else v).
Proof.
  intros Hcol Hval Hinf. unfold data_cleaning. cbn [default_list].
  rewrite (clean_columns_map _ [] raw_data (Forall_nil _)).
  eexists. eexists. split; [reflexivity |]. split.
  - rewrite nth_error_map, Hcol. reflexivity.
  - rewrite nth_error_map, Hval. cbn [option_map]. f_equal.
    unfold clean_value. cbn [forbid_value fst].
    destruct (existsb (String.eqb col) (default_list positive_fields));
      destruct Hinf as [-> | ->]; reflexivity.
Qed.

Lemma data_cleaning_keeps_infinities_witness :
  exists df values',
    data_cleaning [(casos, Numeric [Finite 3; PosInf])]
                  (Some positive_fields1) None = Ok df
    /\ nth_error df 0 = Some (casos, Numeric values')
    /\ nth_error values' 1
       = Some (if existsb (String.eqb casos) positive_fields1
               then PosInf else PosInf).
Proof.
  apply (data_cleaning_keeps_infinities
           [(casos, Numeric [Finite 3; PosInf])] (Some positive_fields1)
           0%nat 1%nat casos [Finite 3; PosInf] PosInf).
  - reflexivity.
  - reflexivity.
  - left. reflexivity.
Defined.

(** X14: cleaning is idempotent: a frame that [data_cleaning] returned is
    returned unchanged when it is cleaned again with the same arguments. *)
Theorem data_cleaning_idempotent
        (raw_data df : dataframe) (positive_fields : option (list String.string))
        (forbidden_values : option (list (list xfloat))) :
  data_cleaning raw_data positive_fields forbidden_values = Ok df ->
  data_cleaning df positive_fields forbidden_values = Ok df.
Proof.
  unfold data_cleaning.
  set (pf := default_list positive_fields).
  set (fv := default_list forbidden_values).
  revert df. induction raw_data as [| [col [values | values]] raw IH];
    intros df Hrun; cbn [clean_columns] in Hrun.
  - injection Hrun as <-. reflexivity.
  - destruct (clean_numeric (existsb (String.eqb col) pf) fv values)
      as [values' |] eqn:Enum; [| discriminate].
    destruct (clean_columns pf fv raw) as [rest |] eqn:Erest; [| discriminate].
    injection Hrun as <-. cbn [clean_columns].
    assert (Hwf : well_formed fv)
      by exact (apply_forbidden_well_formed _ _ _ Enum).
    rewrite (clean_numeric_values _ fv Hwf) in Enum. injection Enum as <-.
    rewrite (clean_numeric_values _ fv Hwf), (IH rest eq_refl), map_map.
    rewrite (map_ext _ _ (fun v => clean_value_idempotent _ fv v Hwf)).
    reflexivity.
  - destruct (clean_columns pf fv raw) as [rest |] eqn:Erest; [| discriminate].
    injection Hrun as <-. cbn [clean_columns].
    rewrite (IH rest eq_refl). reflexivity.
Qed.

Lemma data_cleaning_idempotent_witness :
  data_cleaning [(casos, Numeric [Finite 0; Finite 7])]
                (Some positive_fields1) None
  = Ok [(casos, Numeric [Finite 0; Finite 7])].
Proof.
  apply (data_cleaning_idempotent
           [(casos, Numeric [NaN; Finite 7])]
           [(casos, Numeric [Finite 0; Finite 7])]
           (Some positive_fields1) None).
  unfold data_cleaning, positive_fields1, casos. cbn. unfold zero_negative, xlt, Rltb.
  repeat (destruct (Rlt_dec _ _); try lra). reflexivity.
Defined.

(** X15: a forbidden range that is not a pair makes [data_cleaning] fail
    exactly when the frame has a numeric column; a frame of text columns is
    returned as it is, whatever the ranges. *)
Theorem data_cleaning_malformed_range
        (raw_data : dataframe) (positive_fields : option (list String.string))
        (forbidden_values : list (list xfloat)) :
  ~ well_formed forbidden_values ->
  (data_cleaning raw_data positive_fields (Some forbidden_values) = ValueError
   <-> existsb is_numeric raw_data = true)
  /\ (existsb is_numeric raw_data = false ->
      data_cleaning raw_data positive_fields (Some forbidden_values)
      = Ok raw_data).
Proof.
  intros Hbad. unfold data_cleaning. cbn [default_list].
  destruct (existsb is_numeric raw_data) eqn:Enum.
  - rewrite (clean_columns_malformed _ _ raw_data Hbad Enum).
    split; [split; reflexivity | discriminate].
  - rewrite (clean_columns_text_only _ _ raw_data Enum).
    split; [split; discriminate | reflexivity].
Qed.

Lemma data_cleaning_malformed_range_witness :
  data_cleaning [(casos, Numeric [Finite 1])] None (Some [[Finite 1]])
  = ValueError.
Proof.
  apply (proj1 (data_cleaning_malformed_range
                  [(casos, Numeric [Finite 1])] None [[Finite 1]]
                  ltac:(intros Hwf; inversion Hwf as [| ? ? Hlen _];
                        discriminate Hlen))).
  reflexivity.
Defined.

End CleaningFacts.
